(** * The xv6 buffer cache (kernel/bio.c), hashed variant

    A shallow embedding of [kernel/bio.c]: thirteen hash buckets, each a
    sentinel-headed doubly linked list with its own spinlock, one free list
    with its own spinlock, a fixed array of buffers, and per-buffer sleep
    locks.  The C globals become one [state] record, every C function becomes
    a computation in a small state/trace/error monad, and the pointer
    manipulation is kept as it is written: loads and stores of [prev] and
    [next] fields through pointers.

    Operations run one at a time (each call is one atomic step of the
    model); the spinlocks appear as [Acquire]/[Release] events of the trace
    an operation leaves behind, the sleep locks are part of the state. *)

From stdpp Require Import gmap strings list.
From Stdlib Require Import ZArith Lia.

Local Open Scope Z_scope.

(** ** Memory model *)

(** A [struct buf *]: the null pointer, the address of [cache[i]], of
    [hash_table[h].head], or of [freelist_head].  The bucket index is the C
    [int] it is computed from, so an index outside the array is a pointer
    that cannot be dereferenced. *)
Inductive ptr : Type :=
| Null
| Slot (i : nat)
| BucketHead (h : Z)
| FreelistHead.

#[global] Instance ptr_eq_dec : EqDecision ptr.
Proof. solve_decision. Defined.

(** Modelled from the spec: [buf.h] is not part of the sources; [struct buf]
    has the fields [bio.c] uses.  [valid] is a C [int]; [dev], [blockno] are
    [uint]; [refcnt] is the reference count, a counter that is never
    negative, i.e. a 32-bit unsigned integer whose increment and decrement
    wrap around; [lock] is the sleep lock, [None] when free and [Some pid]
    when process [pid] holds it; [data] is the block's content. *)
Record buf : Type := Buf {
  valid : Z;
  dev : Z;
  blockno : Z;
  lock : option Z;
  refcnt : Z;
  prev : ptr;
  next : ptr;
  data : list Z
}.

Definition with_valid (v : Z) (b : buf) : buf :=
  Buf v (dev b) (blockno b) (lock b) (refcnt b) (prev b) (next b) (data b).
Definition with_dev (d : Z) (b : buf) : buf :=
  Buf (valid b) d (blockno b) (lock b) (refcnt b) (prev b) (next b) (data b).
Definition with_blockno (n : Z) (b : buf) : buf :=
  Buf (valid b) (dev b) n (lock b) (refcnt b) (prev b) (next b) (data b).
Definition with_lock (l : option Z) (b : buf) : buf :=
  Buf (valid b) (dev b) (blockno b) l (refcnt b) (prev b) (next b) (data b).
Definition with_refcnt (r : Z) (b : buf) : buf :=
  Buf (valid b) (dev b) (blockno b) (lock b) r (prev b) (next b) (data b).
Definition with_prev (p : ptr) (b : buf) : buf :=
  Buf (valid b) (dev b) (blockno b) (lock b) (refcnt b) p (next b) (data b).
Definition with_next (p : ptr) (b : buf) : buf :=
  Buf (valid b) (dev b) (blockno b) (lock b) (refcnt b) (prev b) p (data b).
Definition with_data (d : list Z) (b : buf) : buf :=
  Buf (valid b) (dev b) (blockno b) (lock b) (refcnt b) (prev b) (next b) d.

(** [#define NHASH 13] *)
Definition NHASH : Z := 13.

(** The globals of [bio.c]: [hash_table[NHASH]] (the [head] of each entry;
    its spinlock shows up in traces only), [freelist_head] and [cache[NBUF]].
    Modelled from the spec: the disk behind [virtio_disk_rw], a map from
    (device, block number) to content. *)
Record state : Type := State {
  hash_table : list buf;
  freelist_head : buf;
  cache : list buf;
  disk : gmap (Z * Z) (list Z)
}.

(** Dereference a pointer. *)
Definition sel (st : state) (p : ptr) : option buf :=
  match p with
  | Null => None
  | Slot i => cache st !! i
  | BucketHead h => if decide (0 ≤ h) then hash_table st !! Z.to_nat h else None
  | FreelistHead => Some (freelist_head st)
  end.

(** Update the struct a pointer points to. *)
Definition upd (p : ptr) (f : buf → buf) (st : state) : state :=
  match p with
  | Null => st
  | Slot i => State (hash_table st) (freelist_head st) (alter f i (cache st)) (disk st)
  | BucketHead h =>
      if decide (0 ≤ h)
      then State (alter f (Z.to_nat h) (hash_table st)) (freelist_head st) (cache st) (disk st)
      else st
  | FreelistHead => State (hash_table st) (f (freelist_head st)) (cache st) (disk st)
  end.

(** ** Outcomes, traces and the monad *)

Inductive lockid : Type :=
| BucketLock (h : Z)
| FreelistLock.

#[global] Instance lockid_eq_dec : EqDecision lockid.
Proof. solve_decision. Defined.

Inductive event : Type :=
| Acquire (l : lockid)
| Release (l : lockid)
| AcquireSleep (b : ptr) (pid : Z)
| ReleaseSleep (b : ptr)
| DiskRW (b : ptr) (write : bool).

(** How a call ends: it returns ([Done]), it panics, the caller is put to
    sleep inside [acquiresleep] on the lock of [b] ([Sleeping]), it
    dereferences an invalid pointer ([Fault], undefined behaviour in C), or
    a list scan did not come back to its sentinel within its step budget
    ([OutOfFuel]). *)
Inductive outcome (A : Type) : Type :=
| Done (a : A) (s : state) (t : list event)
| Panic (msg : string) (s : state) (t : list event)
| Sleeping (b : ptr) (s : state) (t : list event)
| Fault
| OutOfFuel.
Arguments Done {A} a s t.
Arguments Panic {A} msg s t.
Arguments Sleeping {A} b s t.
Arguments Fault {A}.
Arguments OutOfFuel {A}.

Definition M (A : Type) : Type := state → outcome A.

Definition prepend {A} (t : list event) (o : outcome A) : outcome A :=
  match o with
  | Done a s t' => Done a s (t ++ t')
  | Panic m s t' => Panic m s (t ++ t')
  | Sleeping b s t' => Sleeping b s (t ++ t')
  | Fault => Fault
  | OutOfFuel => OutOfFuel
  end.

Definition ret {A} (a : A) : M A := λ st, Done a st [].

Definition bind {A B} (m : M A) (f : A → M B) : M B := λ st,
  match m st with
  | Done a s t => prepend t (f a s)
  | Panic msg s t => Panic msg s t
  | Sleeping b s t => Sleeping b s t
  | Fault => Fault
  | OutOfFuel => OutOfFuel
  end.

Notation "x <- m ;; k" := (bind m (λ x, k))
  (at level 99, m at next level, right associativity).
Notation "m ;;; k" := (bind m (λ _, k))
  (at level 99, right associativity).

Definition load (p : ptr) : M buf := λ st,
  match sel st p with
  | Some b => Done b st []
  | None => Fault
  end.

Definition store (p : ptr) (f : buf → buf) : M unit := λ st,
  match sel st p with
  | Some _ => Done tt (upd p f st) []
  | None => Fault
  end.

Definition emit (e : event) : M unit := λ st, Done tt st [e].

Definition panic {A} (msg : string) : M A := λ st, Panic msg st [].

Fixpoint for_each {A} (l : list A) (body : A → M unit) : M unit :=
  match l with
  | [] => ret tt
  | x :: l' => body x ;;; for_each l' body
  end.

(** ** Collaborators *)

(** Spinlocks ([spinlock.c] is not part of the sources).  With one call
    running at a time a spinlock is free whenever it is acquired, so
    [acquire] and [release] only leave their event; a bucket lock outside
    [hash_table] does not exist. *)
Definition lock_exists (l : lockid) : Prop :=
  match l with
  | BucketLock h => 0 ≤ h < NHASH
  | FreelistLock => True
  end.

#[global] Instance lock_exists_dec l : Decision (lock_exists l).
Proof. destruct l; simpl; apply _. Defined.

Definition acquire (l : lockid) : M unit :=
  if decide (lock_exists l) then emit (Acquire l) else λ _, Fault.

Definition release (l : lockid) : M unit :=
  if decide (lock_exists l) then emit (Release l) else λ _, Fault.

(** Modelled from the spec: the sleep lock of [sleeplock.c], the
    exclusive-access primitive that may suspend the caller.  [pid] is the
    calling process. *)
Definition initsleeplock (b : ptr) : M unit := store b (with_lock None).

Definition acquiresleep (b : ptr) (pid : Z) : M unit := λ st,
  match sel st b with
  | None => Fault
  | Some bb =>
      match lock bb with
      | None => Done tt (upd b (with_lock (Some pid)) st) [AcquireSleep b pid]
      | Some _ => Sleeping b st []
      end
  end.

Definition releasesleep (b : ptr) : M unit :=
  store b (with_lock None) ;;; emit (ReleaseSleep b).

Definition holdingsleep (b : ptr) (pid : Z) : M bool :=
  bb <- load b ;; ret (bool_decide (lock bb = Some pid)).

(** Modelled from the spec: [virtio_disk_rw(b, write)] of the disk driver,
    which fills the buffer from the block (a block never written reads as
    empty) or persists the buffer to it. *)
Definition virtio_disk_rw (b : ptr) (write : bool) : M unit :=
  bb <- load b ;;
  if write
  then (λ st, Done tt (State (hash_table st) (freelist_head st) (cache st)
                         (<[(dev bb, blockno bb) := data bb]> (disk st)))
                [DiskRW b true])
  else (λ st, Done tt (upd b (with_data
                         (default [] (disk st !! (dev bb, blockno bb)))) st)
                [DiskRW b false]).

(** ** [bio.c] *)

(** C's conversion of a [uint] to [int] (two's complement). *)
Definition to_int (x : Z) : Z := (x + 2 ^ 31) mod 2 ^ 32 - 2 ^ 31.

(** Arithmetic on [uint]. *)
Definition wrap32 (x : Z) : Z := x mod 2 ^ 32.

(** [int hash(int blockno) { return blockno % NHASH; }]: C's [%] truncates
    towards zero, so a negative argument gives a negative or zero result. *)
Definition hash (blockno : Z) : Z := Z.rem (to_int blockno) NHASH.

(** The zeroed globals the kernel starts with, for a cache of [nbuf]
    buffers ([NBUF] comes from [param.h], which is not part of the
    sources). *)
Definition zero_buf : buf := Buf 0 0 0 None 0 Null Null [].

Definition boot (nbuf : nat) : state :=
  State (replicate (Z.to_nat NHASH) zero_buf) zero_buf (replicate nbuf zero_buf) ∅.

Definition binit : M unit :=
  for_each (seq 0 (Z.to_nat NHASH)) (λ i,
    let hd := BucketHead (Z.of_nat i) in
    store hd (with_prev hd) ;;;
    store hd (with_next hd)) ;;;
  store FreelistHead (with_next FreelistHead) ;;;
  store FreelistHead (with_prev FreelistHead) ;;;
  (λ st, for_each (seq 0 (length (cache st))) (λ i,
    let b := Slot i in
    initsleeplock b ;;;
    (fh <- load FreelistHead ;; store b (with_next (next fh))) ;;;
    store b (with_prev FreelistHead) ;;;
    (fh <- load FreelistHead ;; store (next fh) (with_prev b)) ;;;
    store FreelistHead (with_next b)) st).

(** The first loop of [bget]: walk the bucket from [b] until the sentinel
    [hd], looking for the buffer of ([dev], [blockno]). *)
Fixpoint scan_bucket (fuel : nat) (hd : ptr) (d n : Z) (b : ptr) : M (option ptr) :=
  match fuel with
  | O => λ _, OutOfFuel
  | S fuel' =>
      if decide (b = hd) then ret None
      else
        bb <- load b ;;
        if decide (dev bb = d ∧ blockno bb = n) then ret (Some b)
        else scan_bucket fuel' hd d n (next bb)
  end.

(** The second loop of [bget]: walk the free list from [b] until its
    sentinel, looking for a buffer with [refcnt == 0]. *)
Fixpoint scan_free (fuel : nat) (b : ptr) : M (option ptr) :=
  match fuel with
  | O => λ _, OutOfFuel
  | S fuel' =>
      if decide (b = FreelistHead) then ret None
      else
        bb <- load b ;;
        if decide (refcnt bb = 0) then ret (Some b)
        else scan_free fuel' (next bb)
  end.

(** One more step than there are buffers brings a scan of a well-formed
    list back to its sentinel. *)
Definition scan_budget (st : state) : nat := S (length (cache st)).

Definition bget (pid : Z) (d n : Z) : M ptr :=
  let h := hash n in
  let hd := BucketHead h in
  acquire (BucketLock h) ;;;
  hb <- load hd ;;
  hit <- (λ st, scan_bucket (scan_budget st) hd d n (next hb) st) ;;
  match hit with
  | Some b =>
      (bb <- load b ;; store b (with_refcnt (wrap32 (refcnt bb + 1)))) ;;;
      release (BucketLock h) ;;;
      acquiresleep b pid ;;;
      ret b
  | None =>
      acquire FreelistLock ;;;
      fh <- load FreelistHead ;;
      free <- (λ st, scan_free (scan_budget st) (next fh) st) ;;
      match free with
      | Some b =>
          (bb <- load b ;; store (next bb) (with_prev (prev bb))) ;;;
          (bb <- load b ;; store (prev bb) (with_next (next bb))) ;;;
          release FreelistLock ;;;
          store b (with_dev d) ;;;
          store b (with_blockno n) ;;;
          store b (with_valid 0) ;;;
          store b (with_refcnt 1) ;;;
          (hb <- load hd ;; store b (with_next (next hb))) ;;;
          store b (with_prev hd) ;;;
          (hb <- load hd ;; store (next hb) (with_prev b)) ;;;
          store hd (with_next b) ;;;
          release (BucketLock h) ;;;
          acquiresleep b pid ;;;
          ret b
      | None =>
          release FreelistLock ;;;
          panic "bget: no buffers"
      end
  end.

Definition bread (pid : Z) (d n : Z) : M ptr :=
  b <- bget pid d n ;;
  bb <- load b ;;
  (if decide (valid bb = 0)
   then virtio_disk_rw b false ;;; store b (with_valid 1)
   else ret tt) ;;;
  ret b.

Definition bwrite (pid : Z) (b : ptr) : M unit :=
  held <- holdingsleep b pid ;;
  (if held then ret tt else panic "bwrite") ;;;
  virtio_disk_rw b true.

Definition brelse (pid : Z) (b : ptr) : M unit :=
  held <- holdingsleep b pid ;;
  (if held then ret tt else panic "brelse") ;;;
  releasesleep b ;;;
  bb <- load b ;;
  let h := hash (blockno bb) in
  acquire (BucketLock h) ;;;
  (bb <- load b ;; store b (with_refcnt (wrap32 (refcnt bb - 1)))) ;;;
  bb <- load b ;;
  (if decide (refcnt bb = 0)
   then
     (bb <- load b ;; store (next bb) (with_prev (prev bb))) ;;;
     (bb <- load b ;; store (prev bb) (with_next (next bb))) ;;;
     acquire FreelistLock ;;;
     (fh <- load FreelistHead ;; store b (with_next (next fh))) ;;;
     store b (with_prev FreelistHead) ;;;
     (fh <- load FreelistHead ;; store (next fh) (with_prev b)) ;;;
     store FreelistHead (with_next b) ;;;
     release FreelistLock
   else ret tt) ;;;
  release (BucketLock h).

Definition bpin (b : ptr) : M unit :=
  bb <- load b ;;
  let h := hash (blockno bb) in
  acquire (BucketLock h) ;;;
  (bb <- load b ;; store b (with_refcnt (wrap32 (refcnt bb + 1)))) ;;;
  release (BucketLock h).

Definition bunpin (b : ptr) : M unit :=
  bb <- load b ;;
  let h := hash (blockno bb) in
  acquire (BucketLock h) ;;;
  (bb <- load b ;; store b (with_refcnt (wrap32 (refcnt bb - 1)))) ;;;
  release (BucketLock h).

(** The cache after boot and [binit]. *)
Definition outcome_state {A} (o : outcome A) (dflt : state) : state :=
  match o with
  | Done _ s _ | Panic _ s _ | Sleeping _ s _ => s
  | _ => dflt
  end.

Definition init (nbuf : nat) : state := outcome_state (binit (boot nbuf)) (boot nbuf).

(** ** Observers: the lists as the pointers spell them *)

(** Follow [next] from [p] until the sentinel [hd]. *)
Fixpoint walk (fuel : nat) (st : state) (hd p : ptr) : option (list ptr) :=
  match fuel with
  | O => None
  | S fuel' =>
      if decide (p = hd) then Some []
      else match sel st p with
           | Some bb => cons p <$> walk fuel' st hd (next bb)
           | None => None
           end
  end.

Definition members (st : state) (hd : ptr) : option (list ptr) :=
  match sel st hd with
  | Some hb => walk (scan_budget st) st hd (next hb)
  | None => None
  end.

Definition freelist (st : state) : option (list ptr) := members st FreelistHead.
Definition bucket (st : state) (h : Z) : option (list ptr) := members st (BucketHead h).

(** The first element of [l] whose struct satisfies [P]. *)
Fixpoint first_such (st : state) (P : buf → bool) (l : list ptr) : option ptr :=
  match l with
  | [] => None
  | x :: l' =>
      match sel st x with
      | Some bb => if P bb then Some x else first_such st P l'
      | None => None
      end
  end.

Definition is_block (d n : Z) (bb : buf) : bool :=
  bool_decide (dev bb = d ∧ blockno bb = n).
Definition is_unused (bb : buf) : bool := bool_decide (refcnt bb = 0).

(** ** Basic facts about the memory model and the monad *)

Lemma sel_upd p f st q :
  sel (upd p f st) q = if decide (p = q) then f <$> sel st q else sel st q.
Proof.
  destruct p as [|i|h|], q as [|j|k|]; simpl; try done;
    repeat case_decide; simplify_eq; simpl; try done; try lia.
  - by rewrite list_lookup_alter_eq.
  - by rewrite list_lookup_alter_ne by congruence.
  - by rewrite list_lookup_alter_eq.
  - rewrite list_lookup_alter_ne; [done|]. intros E. apply Z2Nat.inj in E; try lia. congruence.
Qed.

Lemma sel_upd_eq p f st : sel (upd p f st) p = f <$> sel st p.
Proof. rewrite sel_upd. by case_decide. Qed.

Lemma sel_upd_ne p f st q : p ≠ q → sel (upd p f st) q = sel st q.
Proof. intros. rewrite sel_upd. by case_decide. Qed.

Lemma cache_length_upd p f st : length (cache (upd p f st)) = length (cache st).
Proof. destruct p; simpl; try done; [by rewrite length_alter|by case_decide]. Qed.

Lemma hash_table_length_upd p f st :
  length (hash_table (upd p f st)) = length (hash_table st).
Proof. destruct p; simpl; try done. case_decide; simpl; [by rewrite length_alter|done]. Qed.

Lemma disk_upd p f st : disk (upd p f st) = disk st.
Proof. destruct p; simpl; try done. by case_decide. Qed.

Lemma scan_budget_upd p f st : scan_budget (upd p f st) = scan_budget st.
Proof. unfold scan_budget. by rewrite cache_length_upd. Qed.

Lemma prepend_nil {A} (o : outcome A) : prepend [] o = o.
Proof. by destruct o. Qed.

Lemma prepend_prepend {A} t1 t2 (o : outcome A) :
  prepend t1 (prepend t2 o) = prepend (t1 ++ t2) o.
Proof. destruct o; simpl; by rewrite ?app_assoc. Qed.

Lemma bind_bind {A B C} (m : M A) (f : A → M B) (g : B → M C) st :
  bind (bind m f) g st = bind m (λ x, bind (f x) g) st.
Proof.
  unfold bind. destruct (m st) as [a s t| | | |]; try done.
  destruct (f a s) as [b s' t'| | | |]; simpl; try done.
  destruct (g b s'); simpl; by rewrite ?app_assoc.
Qed.

Lemma bind_ret {A B} (a : A) (f : A → M B) st : bind (ret a) f st = f a st.
Proof. unfold bind, ret. apply prepend_nil. Qed.

Lemma bind_load {B} p (k : buf → M B) st bb :
  sel st p = Some bb → bind (load p) k st = k bb st.
Proof. intros H. unfold bind, load. rewrite H. apply prepend_nil. Qed.

Lemma bind_store {B} p f (k : unit → M B) st bb :
  sel st p = Some bb → bind (store p f) k st = k tt (upd p f st).
Proof. intros H. unfold bind, store. rewrite H. apply prepend_nil. Qed.

Lemma bind_emit {B} e (k : unit → M B) st :
  bind (emit e) k st = prepend [e] (k tt st).
Proof. done. Qed.

Lemma bind_acquire {B} l (k : unit → M B) st :
  lock_exists l → bind (acquire l) k st = prepend [Acquire l] (k tt st).
Proof. intros H. unfold acquire. by rewrite decide_True. Qed.

Lemma bind_release {B} l (k : unit → M B) st :
  lock_exists l → bind (release l) k st = prepend [Release l] (k tt st).
Proof. intros H. unfold release. by rewrite decide_True. Qed.

(** ** Doubly linked rings *)

Definition nxt (st : state) (x : ptr) : option ptr := next <$> sel st x.
Definition prv (st : state) (x : ptr) : option ptr := prev <$> sel st x.

(** [links st p l q]: starting after [p], the [next] pointers run through
    [l] and then reach [q], and the [prev] pointers run back. *)
Fixpoint links (st : state) (p : ptr) (l : list ptr) (q : ptr) : Prop :=
  match l with
  | [] => nxt st p = Some q ∧ prv st q = Some p
  | x :: l' => nxt st p = Some x ∧ prv st x = Some p ∧ links st x l' q
  end.

(** The list with sentinel [hd] holds exactly [l], in this order. *)
Definition ring (st : state) (hd : ptr) (l : list ptr) : Prop := links st hd l hd.

Fixpoint last_of (a : ptr) (l : list ptr) : ptr :=
  match l with
  | [] => a
  | x :: l' => last_of x l'
  end.
Definition head_of (l : list ptr) (c : ptr) : ptr := List.hd c l.

Lemma last_of_cons a x l : last_of a (x :: l) = last_of x l.
Proof. done. Qed.

Lemma last_of_elem a l : last_of a l ∈ a :: l.
Proof.
  revert a. induction l as [|x l IH]; intros a; [set_solver|].
  rewrite ?last_of_cons. specialize (IH x). set_solver.
Qed.

Lemma head_of_elem l c : head_of l c ∈ l ++ [c].
Proof. destruct l; simpl; set_solver. Qed.

Lemma links_frame st st' p l q :
  (∀ x, x ∈ p :: l → nxt st' x = nxt st x) →
  (∀ x, x ∈ l ++ [q] → prv st' x = prv st x) →
  links st p l q → links st' p l q.
Proof.
  revert p. induction l as [|y l IH]; intros p Hn Hp; simpl.
  - intros [H1 H2]. rewrite Hn, Hp by set_solver. done.
  - intros (H1 & H2 & H3). rewrite Hn, Hp by set_solver.
    split_and!; try done. apply IH; [| |done]; intros; [apply Hn|apply Hp]; set_solver.
Qed.

Lemma links_app st p l1 x l2 q :
  links st p (l1 ++ x :: l2) q ↔ links st p l1 x ∧ links st x l2 q.
Proof.
  revert p. induction l1 as [|y l1 IH]; intros p; simpl.
  - tauto.
  - rewrite IH. tauto.
Qed.

Lemma links_nxt_last st p l q : links st p l q → nxt st (last_of p l) = Some q.
Proof.
  revert p. induction l as [|y l IH]; intros p; simpl.
  - by intros [? _].
  - intros (_ & _ & H). rewrite ?last_of_cons. by apply IH.
Qed.

Lemma links_prv_head st p l q : links st p l q → prv st (head_of l q) = Some p.
Proof. destruct l; simpl; tauto. Qed.

Lemma links_nxt_head st p l q : links st p l q → nxt st p = Some (head_of l q).
Proof. destruct l; simpl; tauto. Qed.

Lemma links_prv_last st p l q : links st p l q → prv st q = Some (last_of p l).
Proof.
  revert p. induction l as [|y l IH]; intros p; simpl.
  - by intros [_ ?].
  - intros (_ & _ & H). rewrite ?last_of_cons. by apply IH.
Qed.

Lemma links_sel st p l q x : links st p l q → x ∈ l → is_Some (sel st x).
Proof.
  revert p. induction l as [|y l IH]; intros p; simpl; [set_solver|].
  intros (_ & H2 & H3) [->|Hx]%elem_of_cons; [|by eapply IH].
  unfold prv in H2. destruct (sel st y); [eauto|done].
Qed.

(** Taking [b] out of a chain: its neighbours are linked to each other. *)
Lemma links_unlink st st' a l1 b l2 c :
  NoDup (a :: l1 ++ b :: l2) → NoDup (l1 ++ b :: l2 ++ [c]) →
  links st a (l1 ++ b :: l2) c →
  (∀ x, nxt st' x = if decide (x = last_of a l1) then Some (head_of l2 c) else nxt st x) →
  (∀ x, prv st' x = if decide (x = head_of l2 c) then Some (last_of a l1) else prv st x) →
  links st' a (l1 ++ l2) c.
Proof.
  revert a. induction l1 as [|y l1 IH]; intros a Hd1 Hd2 Hl Hn Hp.
  - simpl in *. destruct Hl as (H1 & H2 & H3).
    apply NoDup_cons in Hd1 as [Ha Hd1]. apply NoDup_cons in Hd2 as [Hb Hd2].
    destruct l2 as [|n l2]; simpl in *.
    + rewrite Hn, Hp. by rewrite !decide_True.
    + destruct H3 as (H3 & H4 & H5). rewrite Hn, Hp. rewrite !decide_True by done.
      split_and!; try done.
      apply NoDup_cons in Hd2 as [Hn2 Hd2].
      eapply links_frame; [| |done].
      * intros x Hx. rewrite Hn. rewrite decide_False; [done|]. intros ->.
        apply Ha. set_solver.
      * intros x Hx. rewrite Hp. rewrite decide_False; [done|]. by intros ->.
  - simpl in Hl. destruct Hl as (H1 & H2 & H3).
    simpl in Hn, Hp. simpl.
    apply NoDup_cons in Hd1 as [Ha Hd1]. simpl in Hd2.
    pose proof Hd2 as Hd2'. apply NoDup_cons in Hd2 as [Hy Hd2].
    rewrite Hn, Hp. rewrite !decide_False; first (split_and!; try done; by apply IH).
    + intros ->. apply Hy. pose proof (head_of_elem l2 c). set_solver.
    + intros E. apply Ha. rewrite E. pose proof (last_of_elem y l1). set_solver.
Qed.

(** Putting [b] in front of a ring. *)
Lemma links_push st st' hd l b :
  NoDup (hd :: l) → b ∉ hd :: l →
  ring st hd l →
  (∀ x, nxt st' x = if decide (x = hd) then Some b
                    else if decide (x = b) then Some (head_of l hd) else nxt st x) →
  (∀ x, prv st' x = if decide (x = head_of l hd) then Some b
                    else if decide (x = b) then Some hd else prv st x) →
  ring st' hd (b :: l).
Proof.
  unfold ring. intros Hd Hb Hl Hn Hp. simpl.
  apply NoDup_cons in Hd as [Hhd Hd].
  assert (b ≠ hd) by set_solver.
  assert (b ≠ head_of l hd).
  { pose proof (head_of_elem l hd). set_solver. }
  rewrite Hn, Hp. rewrite decide_True by done.
  rewrite decide_False by done. rewrite decide_True by done. split_and!; try done.
  destruct l as [|n l]; simpl in *.
  - rewrite Hn, Hp. rewrite decide_False by done. by rewrite !decide_True.
  - destruct Hl as (H1 & H2 & H3). rewrite Hn, Hp.
    rewrite decide_False by done. rewrite !decide_True by done. split_and!; try done.
    apply NoDup_cons in Hd as [Hn2 Hd].
    eapply links_frame; [| |done].
    + intros x Hx. rewrite Hn. rewrite !decide_False; [done| |]; intros ->; set_solver.
    + intros x Hx. rewrite Hp. rewrite !decide_False; [done| |]; intros ->; set_solver.
Qed.

(** On a ring the observer returns the ring's elements. *)
Lemma walk_links fuel st p l hd x :
  links st p l hd → hd ∉ l → nxt st p = Some x → (length l < fuel)%nat →
  walk fuel st hd x = Some l.
Proof.
  revert p l x. induction fuel as [|fuel IH]; intros p l x Hl Hhd Hx Hlen; [lia|].
  simpl. destruct l as [|y l]; simpl in *.
  - destruct Hl as [H1 _]. rewrite H1 in Hx. simplify_eq. by rewrite decide_True.
  - destruct Hl as (H1 & H2 & H3). rewrite H1 in Hx. simplify_eq.
    rewrite decide_False by set_solver.
    unfold prv in H2. destruct (sel st x) as [bb|] eqn:E; [|done].
    erewrite IH; [done|exact H3|set_solver| |lia].
    unfold nxt. by rewrite E.
Qed.

(** The two scans of [bget] on a ring: they stop within the budget and
    return the first element that qualifies. *)
Lemma scan_bucket_links fuel st p l hd d n x :
  links st p l hd → hd ∉ l → nxt st p = Some x → (length l < fuel)%nat →
  scan_bucket fuel hd d n x st = Done (first_such st (is_block d n) l) st [].
Proof.
  revert p l x. induction fuel as [|fuel IH]; intros p l x Hl Hhd Hx Hlen; [lia|].
  simpl. destruct l as [|y l]; simpl in *.
  - destruct Hl as [H1 _]. rewrite H1 in Hx. simplify_eq. by rewrite decide_True.
  - destruct Hl as (H1 & H2 & H3). rewrite H1 in Hx. simplify_eq.
    rewrite decide_False by set_solver.
    unfold prv in H2. destruct (sel st x) as [bb|] eqn:E; [|done].
    erewrite bind_load by done. unfold is_block.
    destruct (decide (dev bb = d ∧ blockno bb = n)) as [Hm|Hm].
    + by rewrite bool_decide_eq_true_2.
    + rewrite bool_decide_eq_false_2 by done.
      eapply IH; [exact H3|set_solver| |lia]. unfold nxt. by rewrite E.
Qed.

Lemma scan_free_links fuel st p l x :
  links st p l FreelistHead → FreelistHead ∉ l → nxt st p = Some x →
  (length l < fuel)%nat →
  scan_free fuel x st = Done (first_such st is_unused l) st [].
Proof.
  revert p l x. induction fuel as [|fuel IH]; intros p l x Hl Hhd Hx Hlen; [lia|].
  simpl. destruct l as [|y l]; simpl in *.
  - destruct Hl as [H1 _]. rewrite H1 in Hx. simplify_eq. by rewrite decide_True.
  - destruct Hl as (H1 & H2 & H3). rewrite H1 in Hx. simplify_eq.
    rewrite decide_False by set_solver.
    unfold prv in H2. destruct (sel st x) as [bb|] eqn:E; [|done].
    erewrite bind_load by done. unfold is_unused.
    destruct (decide (refcnt bb = 0)) as [Hm|Hm].
    + by rewrite bool_decide_eq_true_2.
    + rewrite bool_decide_eq_false_2 by done.
      eapply IH; [exact H3|set_solver| |lia]. unfold nxt. by rewrite E.
Qed.

Lemma first_such_elem st P l b : first_such st P l = Some b → b ∈ l.
Proof.
  induction l as [|x l IH]; simpl; [done|].
  destruct (sel st x) as [bb|]; [|done]. destruct (P bb); [|set_solver].
  intros [= ->]. set_solver.
Qed.

Lemma first_such_holds st P l b :
  first_such st P l = Some b → ∃ bb, sel st b = Some bb ∧ P bb = true.
Proof.
  induction l as [|x l IH]; simpl; [done|].
  destruct (sel st x) as [bb|] eqn:E; [|done]. destruct (P bb) eqn:EP; [|done].
  intros [= <-]. eauto.
Qed.

Lemma first_such_none st P l x bb :
  first_such st P l = None → (∀ y, y ∈ l → is_Some (sel st y)) →
  x ∈ l → sel st x = Some bb → P bb = false.
Proof.
  induction l as [|y l IH]; simpl; [set_solver|].
  intros Hf Hs Hx Hb. destruct (Hs y) as [yb Hy]; [set_solver|]. rewrite Hy in Hf.
  destruct (P yb) eqn:EP; [done|].
  apply elem_of_cons in Hx as [->|Hx]; [congruence|].
  apply IH; [done| |done|done]. intros; apply Hs; set_solver.
Qed.

(** ** The representation invariant *)

(** The cache has [NHASH + 1] lists: list [k < NHASH] is bucket [k], list
    [NHASH] is the free list. *)
Definition FREE : nat := Z.to_nat NHASH.

Definition sentinel (k : nat) : ptr :=
  if decide (k < FREE)%nat then BucketHead (Z.of_nat k) else FreelistHead.

Definition is_slot (p : ptr) : Prop := ∃ i, p = Slot i.
Definition is_sentinel (p : ptr) : Prop := p = FreelistHead ∨ ∃ h, p = BucketHead h.

(** [invd st ls det]: the pointers of [st] spell the lists [ls]; every
    buffer is on exactly one of them, or is one of the buffers [det] that an
    operation has unlinked and not yet linked again; a buffer on bucket [k]
    has a block number hashing to [k]. *)
Record invd (st : state) (ls : list (list ptr)) (det : list ptr) : Prop := Inv {
  inv_table : length (hash_table st) = FREE;
  inv_lists : length ls = S FREE;
  inv_ring : ∀ (k : nat) l, ls !! k = Some l → ring st (sentinel k) l;
  inv_perm : det ++ mjoin ls ≡ₚ Slot <$> seq 0 (length (cache st));
  inv_hash : ∀ (k : nat) l x bb,
    ls !! k = Some l → (k < FREE)%nat → x ∈ l → sel st x = Some bb →
    hash (blockno bb) = Z.of_nat k;
  inv_slot : ∀ i bb,
    cache st !! i = Some bb → 0 ≤ hash (blockno bb) < NHASH ∧ 0 ≤ refcnt bb < 2 ^ 32;
  inv_sentinel : ∀ hd bb,
    is_sentinel hd → sel st hd = Some bb → lock bb = None ∧ blockno bb = 0
}.

Definition inv (st : state) (ls : list (list ptr)) : Prop := invd st ls [].

Definition wf (st : state) : Prop := ∃ ls, inv st ls.

Lemma sentinel_is_sentinel k : is_sentinel (sentinel k).
Proof. unfold sentinel, is_sentinel. case_decide; eauto. Qed.

Lemma sentinel_inj k k' :
  (k ≤ FREE)%nat → (k' ≤ FREE)%nat → sentinel k = sentinel k' → k = k'.
Proof. unfold sentinel. intros. repeat case_decide; simplify_eq; lia. Qed.

Lemma sentinel_not_slot k i : sentinel k ≠ Slot i.
Proof. unfold sentinel. by case_decide. Qed.

Lemma sentinel_bucket (h : Z) : 0 ≤ h < NHASH → sentinel (Z.to_nat h) = BucketHead h.
Proof.
  intros. unfold sentinel, FREE. rewrite decide_True by lia. by rewrite Z2Nat.id by lia.
Qed.

Lemma sentinel_free : sentinel FREE = FreelistHead.
Proof. unfold sentinel. rewrite decide_False; [done|lia]. Qed.

Section inv_facts.
Context {st : state} {ls : list (list ptr)} {det : list ptr}.
Hypothesis Hinv : invd st ls det.

Lemma inv_nodup : NoDup (det ++ mjoin ls).
Proof.
  rewrite (inv_perm _ _ _ Hinv). apply NoDup_fmap_2; [|apply NoDup_seq].
  by intros ?? [=].
Qed.

Lemma inv_elem x :
  x ∈ det ++ mjoin ls ↔ ∃ i, x = Slot i ∧ (i < length (cache st))%nat.
Proof.
  rewrite (inv_perm _ _ _ Hinv). rewrite list_elem_of_fmap.
  split; intros (i & -> & Hi); exists i; split; try done.
  - apply elem_of_seq in Hi. lia.
  - apply elem_of_seq. lia.
Qed.

Lemma inv_slot_sel i : (i < length (cache st))%nat → is_Some (sel st (Slot i)).
Proof. intros. simpl. by apply lookup_lt_is_Some. Qed.

Lemma inv_elem_sel x : x ∈ det ++ mjoin ls → is_Some (sel st x).
Proof. intros (i & -> & Hi)%inv_elem. by apply inv_slot_sel. Qed.

Lemma inv_list_elem (k : nat) l x : ls !! k = Some l → x ∈ l → x ∈ mjoin ls.
Proof.
  intros Hl Hx. apply list_elem_of_join. exists l. split; [done|].
  by eapply list_elem_of_lookup_2.
Qed.

Lemma inv_list_slot (k : nat) l x :
  ls !! k = Some l → x ∈ l → ∃ i, x = Slot i ∧ (i < length (cache st))%nat.
Proof.
  intros Hl Hx. apply inv_elem. apply elem_of_app. right. by eapply inv_list_elem.
Qed.

Lemma inv_list_sel (k : nat) l x : ls !! k = Some l → x ∈ l → is_Some (sel st x).
Proof. intros Hl Hx. apply inv_elem_sel, elem_of_app. right. by eapply inv_list_elem. Qed.

Lemma inv_det_slot x : x ∈ det → ∃ i, x = Slot i ∧ (i < length (cache st))%nat.
Proof. intros. apply inv_elem. set_solver. Qed.

Lemma inv_sentinel_not_elem (k k' : nat) l : ls !! k = Some l → sentinel k' ∉ l.
Proof.
  intros Hl Hx. destruct (inv_list_slot _ _ _ Hl Hx) as (i & E & _).
  by apply sentinel_not_slot in E.
Qed.

Lemma inv_length_list (k : nat) l :
  ls !! k = Some l → (length l ≤ length (cache st))%nat.
Proof.
  intros Hl.
  pose proof (Permutation_length (inv_perm _ _ _ Hinv)) as H.
  rewrite !length_app, length_fmap, length_seq in H.
  assert (length l ≤ length (mjoin ls))%nat; [|lia].
  apply list_elem_of_split_length in Hl as (l1 & l2 & -> & _).
  rewrite join_app, !length_app. simpl. rewrite length_app. lia.
Qed.

Lemma inv_lookup (k : nat) : (k ≤ FREE)%nat → is_Some (ls !! k).
Proof. intros. apply lookup_lt_is_Some. rewrite (inv_lists _ _ _ Hinv). lia. Qed.

Lemma inv_lookup_le (k : nat) l : ls !! k = Some l → (k ≤ FREE)%nat.
Proof. intros H%lookup_lt_Some. rewrite (inv_lists _ _ _ Hinv) in H. lia. Qed.

Lemma inv_sel_sentinel (k : nat) : is_Some (sel st (sentinel k)).
Proof.
  unfold sentinel. case_decide; simpl; [|done]. rewrite decide_True by lia.
  rewrite Nat2Z.id. apply lookup_lt_is_Some. by rewrite (inv_table _ _ _ Hinv).
Qed.

(** Two different lists share no buffer. *)
Lemma inv_disjoint (k k' : nat) l l' x :
  ls !! k = Some l → ls !! k' = Some l' → k ≠ k' → x ∈ l → x ∉ l'.
Proof.
  intros Hl Hl' Hne Hx Hx'. pose proof inv_nodup as Hd.
  apply NoDup_app in Hd as (_ & _ & Hd).
  clear Hinv. revert k k' Hl Hl' Hne.
  induction ls as [|l0 ls0 IH]; intros k k' Hl Hl' Hne; [done|].
  simpl in Hd. apply NoDup_app in Hd as (_ & Hd1 & Hd2).
  destruct k as [|k], k' as [|k']; simpl in *; simplify_eq.
  - eapply Hd1; [done|]. apply list_elem_of_join. exists l'. split; [done|].
    by eapply list_elem_of_lookup_2.
  - eapply Hd1; [done|]. apply list_elem_of_join. exists l. split; [done|].
    by eapply list_elem_of_lookup_2.
  - eapply (IH Hd2 k k'); eauto.
Qed.

Lemma inv_nodup_list (k : nat) l : ls !! k = Some l → NoDup l.
Proof.
  intros Hl. pose proof inv_nodup as Hd.
  apply NoDup_app in Hd as (_ & _ & Hd).
  apply list_elem_of_split_length in Hl as (l1 & l2 & E & _).
  rewrite E, join_app in Hd. simpl in Hd.
  apply NoDup_app in Hd as (_ & _ & Hd). by apply NoDup_app in Hd as (Hd & _ & _).
Qed.

Lemma inv_nodup_ring (k : nat) l : ls !! k = Some l → NoDup (sentinel k :: l).
Proof.
  intros Hl. apply NoDup_cons. split; [by eapply inv_sentinel_not_elem|].
  by eapply inv_nodup_list.
Qed.

Lemma inv_det_not_elem (k : nat) l x : x ∈ det → ls !! k = Some l → x ∉ l.
Proof.
  intros Hx Hl Hx'. pose proof inv_nodup as Hd.
  apply NoDup_app in Hd as (_ & Hd & _). eapply Hd; [done|].
  by eapply inv_list_elem.
Qed.

(** The observer agrees with the abstract list. *)
Lemma inv_members (k : nat) l : ls !! k = Some l → members st (sentinel k) = Some l.
Proof.
  intros Hl. unfold members. destruct (inv_sel_sentinel k) as [hb Hhb]. rewrite Hhb.
  pose proof (inv_ring _ _ _ Hinv _ _ Hl) as Hr.
  eapply walk_links; [exact Hr|by eapply inv_sentinel_not_elem| |].
  - unfold nxt. by rewrite Hhb.
  - unfold scan_budget. pose proof (inv_length_list _ _ Hl). lia.
Qed.
End inv_facts.

(** ** The two list manipulations as state transformers *)

(** [b->next->prev = b->prev; b->prev->next = b->next;] *)
Definition unlink_st (b : ptr) (st : state) : state :=
  match sel st b with
  | Some bb => upd (prev bb) (with_next (next bb)) (upd (next bb) (with_prev (prev bb)) st)
  | None => st
  end.

(** [b->next = hd.next; b->prev = &hd; hd.next->prev = b; hd.next = b;] *)
Definition push_st (hd b : ptr) (st : state) : state :=
  match sel st hd with
  | Some hb =>
      upd hd (with_next b) (upd (next hb) (with_prev b)
        (upd b (with_prev hd) (upd b (with_next (next hb)) st)))
  | None => st
  end.

(** Everything in a [struct buf] but the two links. *)
Definition payload (bb : buf) : Z * Z * Z * option Z * Z * list Z :=
  (valid bb, dev bb, blockno bb, lock bb, refcnt bb, data bb).

Lemma payload_eq a b :
  payload a = payload b →
  valid a = valid b ∧ dev a = dev b ∧ blockno a = blockno b ∧
  lock a = lock b ∧ refcnt a = refcnt b ∧ data a = data b.
Proof. unfold payload. intros [=]. done. Qed.

Lemma payload_sel_eq st st' x bb' :
  payload <$> sel st' x = payload <$> sel st x → sel st' x = Some bb' →
  ∃ bb, sel st x = Some bb ∧ payload bb' = payload bb.
Proof.
  intros Hp Hs. rewrite Hs in Hp. destruct (sel st x) as [bb|]; [|done].
  exists bb. split; [done|]. simpl in Hp. congruence.
Qed.

Definition keeps_links (f : buf → buf) : Prop :=
  ∀ bb, next (f bb) = next bb ∧ prev (f bb) = prev bb.
Definition keeps_payload (f : buf → buf) : Prop :=
  ∀ bb, payload (f bb) = payload bb.

Lemma nxt_upd_payload p f st x : keeps_links f → nxt (upd p f st) x = nxt st x.
Proof.
  intros Hf. unfold nxt. rewrite sel_upd. case_decide; [|done].
  destruct (sel st x) as [bb|]; simpl; [|done]. by rewrite (proj1 (Hf bb)).
Qed.

Lemma prv_upd_payload p f st x : keeps_links f → prv (upd p f st) x = prv st x.
Proof.
  intros Hf. unfold prv. rewrite sel_upd. case_decide; [|done].
  destruct (sel st x) as [bb|]; simpl; [|done]. by rewrite (proj2 (Hf bb)).
Qed.

Lemma payload_upd_links p f st x :
  keeps_payload f → payload <$> sel (upd p f st) x = payload <$> sel st x.
Proof.
  intros Hf. rewrite sel_upd. case_decide; [|done].
  destruct (sel st x) as [bb|]; simpl; [|done]. by rewrite Hf.
Qed.

Lemma keeps_payload_next q : keeps_payload (with_next q).
Proof. done. Qed.
Lemma keeps_payload_prev q : keeps_payload (with_prev q).
Proof. done. Qed.
Lemma keeps_links_valid v : keeps_links (with_valid v).
Proof. done. Qed.
Lemma keeps_links_dev v : keeps_links (with_dev v).
Proof. done. Qed.
Lemma keeps_links_blockno v : keeps_links (with_blockno v).
Proof. done. Qed.
Lemma keeps_links_lock v : keeps_links (with_lock v).
Proof. done. Qed.
Lemma keeps_links_refcnt v : keeps_links (with_refcnt v).
Proof. done. Qed.
Lemma keeps_links_data v : keeps_links (with_data v).
Proof. done. Qed.

Create HintDb bio discriminated.
#[local] Hint Resolve keeps_payload_next keeps_payload_prev keeps_links_valid
  keeps_links_dev keeps_links_blockno keeps_links_lock keeps_links_refcnt
  keeps_links_data : bio.

Lemma nxt_upd_next p q st x :
  is_Some (sel st p) →
  nxt (upd p (with_next q) st) x = if decide (x = p) then Some q else nxt st x.
Proof.
  intros [bb Hb]. unfold nxt. rewrite sel_upd.
  destruct (decide (p = x)) as [->|]; [|by rewrite decide_False].
  rewrite decide_True by done. by rewrite Hb.
Qed.

Lemma prv_upd_next p q st x : prv (upd p (with_next q) st) x = prv st x.
Proof.
  unfold prv. rewrite sel_upd. case_decide; [|done]. by destruct (sel st x).
Qed.

Lemma prv_upd_prev p q st x :
  is_Some (sel st p) →
  prv (upd p (with_prev q) st) x = if decide (x = p) then Some q else prv st x.
Proof.
  intros [bb Hb]. unfold prv. rewrite sel_upd.
  destruct (decide (p = x)) as [->|]; [|by rewrite decide_False].
  rewrite decide_True by done. by rewrite Hb.
Qed.

Lemma nxt_upd_prev p q st x : nxt (upd p (with_prev q) st) x = nxt st x.
Proof.
  unfold nxt. rewrite sel_upd. case_decide; [|done]. by destruct (sel st x).
Qed.

Lemma is_Some_sel_upd p f st x : is_Some (sel (upd p f st) x) ↔ is_Some (sel st x).
Proof. rewrite sel_upd. case_decide; [|done]. by rewrite fmap_is_Some. Qed.

Lemma nxt_unlink_st b bb st x :
  sel st b = Some bb → is_Some (sel st (prev bb)) →
  nxt (unlink_st b st) x = if decide (x = prev bb) then Some (next bb) else nxt st x.
Proof.
  intros Hb Hp. unfold unlink_st. rewrite Hb.
  rewrite nxt_upd_next by by apply is_Some_sel_upd.
  by rewrite nxt_upd_prev.
Qed.

Lemma prv_unlink_st b bb st x :
  sel st b = Some bb → is_Some (sel st (next bb)) →
  prv (unlink_st b st) x = if decide (x = next bb) then Some (prev bb) else prv st x.
Proof.
  intros Hb Hp. unfold unlink_st. rewrite Hb.
  rewrite prv_upd_next. by rewrite prv_upd_prev.
Qed.

Lemma payload_unlink_st b st x : payload <$> sel (unlink_st b st) x = payload <$> sel st x.
Proof.
  unfold unlink_st. destruct (sel st b); [|done].
  by rewrite !payload_upd_links by auto with bio.
Qed.

Lemma nxt_push_st hd hb b st x :
  sel st hd = Some hb → is_Some (sel st b) →
  nxt (push_st hd b st) x =
    if decide (x = hd) then Some b
    else if decide (x = b) then Some (next hb) else nxt st x.
Proof.
  intros Hhd Hb. unfold push_st. rewrite Hhd.
  rewrite nxt_upd_next by (rewrite !is_Some_sel_upd; eauto).
  rewrite !nxt_upd_prev. by rewrite nxt_upd_next.
Qed.

Lemma prv_push_st hd hb b st x :
  sel st hd = Some hb → is_Some (sel st b) → is_Some (sel st (next hb)) →
  prv (push_st hd b st) x =
    if decide (x = next hb) then Some b
    else if decide (x = b) then Some hd else prv st x.
Proof.
  intros Hhd Hb Hn. unfold push_st. rewrite Hhd.
  rewrite prv_upd_next.
  rewrite prv_upd_prev by (rewrite !is_Some_sel_upd; eauto).
  rewrite prv_upd_prev by (rewrite !is_Some_sel_upd; eauto).
  by rewrite prv_upd_next.
Qed.

Lemma payload_push_st hd b st x :
  payload <$> sel (push_st hd b st) x = payload <$> sel st x.
Proof.
  unfold push_st. destruct (sel st hd); [|done].
  by rewrite !payload_upd_links by auto with bio.
Qed.

Lemma cache_length_unlink_st b st : length (cache (unlink_st b st)) = length (cache st).
Proof. unfold unlink_st. destruct (sel st b); [|done]. by rewrite !cache_length_upd. Qed.

Lemma cache_length_push_st hd b st : length (cache (push_st hd b st)) = length (cache st).
Proof. unfold push_st. destruct (sel st hd); [|done]. by rewrite !cache_length_upd. Qed.

Lemma hash_table_length_unlink_st b st :
  length (hash_table (unlink_st b st)) = length (hash_table st).
Proof. unfold unlink_st. destruct (sel st b); [|done]. by rewrite !hash_table_length_upd. Qed.

Lemma hash_table_length_push_st hd b st :
  length (hash_table (push_st hd b st)) = length (hash_table st).
Proof. unfold push_st. destruct (sel st hd); [|done]. by rewrite !hash_table_length_upd. Qed.

Lemma disk_unlink_st b st : disk (unlink_st b st) = disk st.
Proof. unfold unlink_st. destruct (sel st b); [|done]. by rewrite !disk_upd. Qed.

Lemma disk_push_st hd b st : disk (push_st hd b st) = disk st.
Proof. unfold push_st. destruct (sel st hd); [|done]. by rewrite !disk_upd. Qed.

(** ** The invariant under the steps of an operation *)

Lemma ring_upd_payload st hd l p f :
  keeps_links f → ring st hd l → ring (upd p f st) hd l.
Proof.
  intros Hf. apply links_frame; intros; [by apply nxt_upd_payload|by apply prv_upd_payload].
Qed.

(** Storing into fields other than the links and the block number. *)
Lemma invd_upd st ls det b f :
  invd st ls det → keeps_links f →
  (∀ bb, sel st b = Some bb →
     blockno (f bb) = blockno bb ∧ 0 ≤ refcnt (f bb) < 2 ^ 32 ∧
     (is_sentinel b → lock (f bb) = lock bb)) →
  invd (upd b f st) ls det.
Proof.
  intros Hinv Hf Hb. split.
  - rewrite hash_table_length_upd. apply Hinv.
  - apply Hinv.
  - intros k l Hl. apply ring_upd_payload; [done|]. by eapply inv_ring.
  - rewrite cache_length_upd. apply Hinv.
  - intros k l x bb' Hl Hk Hx. rewrite sel_upd. case_decide as E.
    + subst x. destruct (sel st b) as [bb|] eqn:Eb; [|done]. intros [= <-].
      rewrite (proj1 (Hb _ eq_refl)). by eapply (inv_hash _ _ _ Hinv).
    + by eapply (inv_hash _ _ _ Hinv).
  - intros i bb'. change (cache (upd b f st) !! i) with (sel (upd b f st) (Slot i)).
    rewrite sel_upd. case_decide as E.
    + subst b. destruct (sel st (Slot i)) as [bb|] eqn:Eb; [|done]. intros [= <-].
      destruct (Hb _ eq_refl) as (-> & ? & _). split; [|done].
      by apply (inv_slot _ _ _ Hinv i).
    + apply (inv_slot _ _ _ Hinv).
  - intros hd bb' Hs. rewrite sel_upd. case_decide as E.
    + subst b. destruct (sel st hd) as [bb|] eqn:Eb; [|done]. intros [= <-].
      destruct (Hb _ eq_refl) as (E1 & _ & E2). rewrite E1, E2 by done.
      by eapply (inv_sentinel _ _ _ Hinv).
    + by apply (inv_sentinel _ _ _ Hinv).
Qed.

(** Storing into an unlinked buffer: the block number may change too. *)
Lemma invd_upd_det st ls det b f :
  invd st ls det → b ∈ det → keeps_links f →
  (∀ bb, sel st b = Some bb →
     0 ≤ hash (blockno (f bb)) < NHASH ∧ 0 ≤ refcnt (f bb) < 2 ^ 32) →
  invd (upd b f st) ls det.
Proof.
  intros Hinv Hdet Hf Hb.
  destruct (inv_det_slot Hinv _ Hdet) as (ib & -> & Hib). split.
  - rewrite hash_table_length_upd. apply Hinv.
  - apply Hinv.
  - intros k l Hl. apply ring_upd_payload; [done|]. by eapply inv_ring.
  - rewrite cache_length_upd. apply Hinv.
  - intros k l x bb' Hl Hk Hx. rewrite sel_upd_ne; [by eapply (inv_hash _ _ _ Hinv)|].
    intros <-. by eapply (inv_det_not_elem Hinv).
  - intros i bb'. change (cache (upd (Slot ib) f st) !! i) with (sel (upd (Slot ib) f st) (Slot i)).
    rewrite sel_upd. case_decide as E.
    + simplify_eq. destruct (sel st (Slot i)) as [bb|] eqn:Eb; [|done]. intros [= <-].
      by apply Hb.
    + apply (inv_slot _ _ _ Hinv).
  - intros hd bb' Hs. rewrite sel_upd_ne; [by apply (inv_sentinel _ _ _ Hinv)|].
    intros <-. destruct Hs as [?|[? ?]]; done.
Qed.

Lemma mjoin_insert (ls : list (list ptr)) k l l' :
  ls !! k = Some l →
  ∃ a c, mjoin ls = a ++ l ++ c ∧ mjoin (<[k:=l']> ls) = a ++ l' ++ c.
Proof.
  intros Hl. exists (mjoin (take k ls)), (mjoin (drop (S k) ls)). split.
  - rewrite <- (take_drop_middle ls k l) at 1 by done. by rewrite join_app.
  - rewrite insert_take_drop by by eapply lookup_lt_Some. by rewrite join_app.
Qed.

(** Unlinking [b] from the list it is on. *)
Lemma invd_unlink st ls k l1 b l2 :
  inv st ls → ls !! k = Some (l1 ++ b :: l2) →
  invd (unlink_st b st) (<[k := l1 ++ l2]> ls) [b].
Proof.
  intros Hinv Hl.
  pose proof (inv_ring _ _ _ Hinv _ _ Hl) as Hr.
  pose proof (inv_nodup_ring Hinv _ _ Hl) as Hd.
  assert (b ∈ l1 ++ b :: l2) as Hbl by set_solver.
  destruct (inv_list_sel Hinv _ _ _ Hl Hbl) as [bb Hbb].
  unfold ring in Hr. pose proof Hr as Hr'. apply links_app in Hr' as [Hr1 Hr2].
  assert (prev bb = last_of (sentinel k) l1) as Hprev.
  { apply links_prv_last in Hr1. unfold prv in Hr1. rewrite Hbb in Hr1. by simplify_eq/=. }
  assert (next bb = head_of l2 (sentinel k)) as Hnext.
  { apply links_nxt_head in Hr2. unfold nxt in Hr2. rewrite Hbb in Hr2. by simplify_eq/=. }
  assert (is_Some (sel st (prev bb))) as Hsp.
  { apply links_nxt_last in Hr1. rewrite <- Hprev in Hr1. unfold nxt in Hr1.
    destruct (sel st (prev bb)); [eauto|done]. }
  assert (is_Some (sel st (next bb))) as Hsn.
  { apply links_prv_head in Hr2. rewrite <- Hnext in Hr2. unfold prv in Hr2.
    destruct (sel st (next bb)); [eauto|done]. }
  pose proof (inv_lookup_le Hinv _ _ Hl) as Hk.
  split.
  - rewrite hash_table_length_unlink_st. apply Hinv.
  - rewrite length_insert. apply Hinv.
  - intros k' l' Hl'. destruct (decide (k = k')) as [<-|Hne].
    + rewrite list_lookup_insert_eq in Hl' by by eapply lookup_lt_Some. simplify_eq.
      eapply links_unlink; [exact Hd| |exact Hr| |].
      * apply NoDup_cons in Hd as [Hd1 Hd2].
        replace (l1 ++ b :: l2 ++ [sentinel k]) with ((l1 ++ b :: l2) ++ [sentinel k])
          by by rewrite <- app_assoc.
        apply NoDup_app. split_and!; [done| |apply NoDup_singleton].
        intros x Hx ->%list_elem_of_singleton. done.
      * intros x. rewrite (nxt_unlink_st _ _ _ _ Hbb Hsp). by rewrite Hprev, Hnext.
      * intros x. rewrite (prv_unlink_st _ _ _ _ Hbb Hsn). by rewrite Hprev, Hnext.
    + rewrite list_lookup_insert_ne in Hl' by done.
      pose proof (inv_lookup_le Hinv _ _ Hl') as Hk'.
      assert (∀ x, x ∈ sentinel k :: l1 ++ b :: l2 → x ∉ sentinel k' :: l') as Hdisj.
      { intros x [->|Hx]%elem_of_cons [E|Hx']%elem_of_cons.
        - apply Hne. by apply sentinel_inj.
        - by apply (inv_sentinel_not_elem Hinv k' k l' Hl').
        - subst x. by apply (inv_sentinel_not_elem Hinv k k' _ Hl).
        - by eapply (inv_disjoint Hinv k k'). }
      eapply links_frame; [| |by eapply (inv_ring _ _ _ Hinv)].
      * intros x Hx. rewrite (nxt_unlink_st _ _ _ _ Hbb Hsp).
        rewrite decide_False; [done|]. intros ->. apply (Hdisj (prev bb)); [|exact Hx].
        rewrite Hprev. pose proof (last_of_elem (sentinel k) l1). set_solver.
      * intros x Hx. rewrite (prv_unlink_st _ _ _ _ Hbb Hsn).
        rewrite decide_False; [done|]. intros ->. apply (Hdisj (next bb)); [|set_solver].
        rewrite Hnext. pose proof (head_of_elem l2 (sentinel k)). set_solver.
  - rewrite cache_length_unlink_st. rewrite <- (inv_perm _ _ _ Hinv).
    destruct (mjoin_insert ls k _ (l1 ++ l2) Hl) as (a & c & -> & ->).
    simpl. rewrite <- !Permutation_middle. simpl. by rewrite <- !Permutation_middle.
  - intros k' l' x bb' Hl' Hk' Hx Hs.
    destruct (payload_sel_eq _ _ _ _ (payload_unlink_st b st x) Hs) as (bb0 & Hs0 & Hp).
    apply payload_eq in Hp as (_ & _ & -> & _).
    destruct (decide (k = k')) as [<-|Hne].
    + rewrite list_lookup_insert_eq in Hl' by by eapply lookup_lt_Some. simplify_eq.
      eapply (inv_hash _ _ _ Hinv); [exact Hl|done| |done]. set_solver.
    + rewrite list_lookup_insert_ne in Hl' by done.
      by eapply (inv_hash _ _ _ Hinv).
  - intros i bb'. change (cache (unlink_st b st) !! i) with (sel (unlink_st b st) (Slot i)).
    intros Hs.
    destruct (payload_sel_eq _ _ _ _ (payload_unlink_st b st _) Hs) as (bb0 & Hs0 & Hp).
    apply payload_eq in Hp as (_ & _ & -> & _ & -> & _).
    by apply (inv_slot _ _ _ Hinv i).
  - intros hd bb' Hhd Hs.
    destruct (payload_sel_eq _ _ _ _ (payload_unlink_st b st _) Hs) as (bb0 & Hs0 & Hp).
    apply payload_eq in Hp as (_ & _ & -> & -> & _).
    by apply (inv_sentinel _ _ _ Hinv hd).
Qed.

(** Linking an unlinked buffer at the head of list [k]. *)
Lemma invd_push st ls det k l b bb :
  invd st ls (b :: det) → ls !! k = Some l → sel st b = Some bb →
  ((k < FREE)%nat → hash (blockno bb) = Z.of_nat k) →
  invd (push_st (sentinel k) b st) (<[k := b :: l]> ls) det.
Proof.
  intros Hinv Hl Hbb Hh.
  pose proof (inv_ring _ _ _ Hinv _ _ Hl) as Hr.
  pose proof (inv_nodup_ring Hinv _ _ Hl) as Hd.
  destruct (inv_sel_sentinel Hinv k) as [hb Hhb].
  assert (b ∈ b :: det) as Hbd by set_solver.
  destruct (inv_det_slot Hinv _ Hbd) as (ib & -> & Hib).
  assert (next hb = head_of l (sentinel k)) as Hnext.
  { apply links_nxt_head in Hr. unfold nxt in Hr. rewrite Hhb in Hr. by simplify_eq/=. }
  assert (is_Some (sel st (next hb))) as Hsn.
  { apply links_prv_head in Hr. rewrite <- Hnext in Hr. unfold prv in Hr.
    destruct (sel st (next hb)); [eauto|done]. }
  assert (is_Some (sel st (Slot ib))) as Hsb by eauto.
  pose proof (inv_lookup_le Hinv _ _ Hl) as Hk.
  assert (Slot ib ∉ sentinel k :: l) as Hbl.
  { intros [E|Hx]%elem_of_cons; [by eapply sentinel_not_slot|].
    apply (inv_det_not_elem Hinv k l (Slot ib)); [set_solver|done|done]. }
  split.
  - rewrite hash_table_length_push_st. apply Hinv.
  - rewrite length_insert. apply Hinv.
  - intros k' l' Hl'. destruct (decide (k = k')) as [<-|Hne].
    + rewrite list_lookup_insert_eq in Hl' by by eapply lookup_lt_Some. simplify_eq.
      eapply links_push; [exact Hd|exact Hbl|exact Hr| |].
      * intros x. rewrite (nxt_push_st _ _ _ _ _ Hhb Hsb). by rewrite Hnext.
      * intros x. rewrite (prv_push_st _ _ _ _ _ Hhb Hsb Hsn). by rewrite Hnext.
    + rewrite list_lookup_insert_ne in Hl' by done.
      pose proof (inv_lookup_le Hinv _ _ Hl') as Hk'.
      assert (∀ x, x ∈ sentinel k :: l → x ∉ sentinel k' :: l') as Hdisj.
      { intros x [->|Hx]%elem_of_cons [E|Hx']%elem_of_cons.
        - apply Hne. by apply sentinel_inj.
        - by apply (inv_sentinel_not_elem Hinv k' k l' Hl').
        - subst x. by apply (inv_sentinel_not_elem Hinv k k' _ Hl).
        - by eapply (inv_disjoint Hinv k k'). }
      assert (Slot ib ∉ sentinel k' :: l') as Hbl'.
      { intros [E|Hx]%elem_of_cons; [by eapply sentinel_not_slot|].
        apply (inv_det_not_elem Hinv k' l' (Slot ib)); [set_solver|done|done]. }
      eapply links_frame; [| |by eapply (inv_ring _ _ _ Hinv)].
      * intros x Hx. rewrite (nxt_push_st _ _ _ _ _ Hhb Hsb).
        rewrite !decide_False; [done| |]; intros ->; [done|].
        apply (Hdisj (sentinel k)); [set_solver|done].
      * intros x Hx. rewrite (prv_push_st _ _ _ _ _ Hhb Hsb Hsn).
        rewrite !decide_False; [done| |]; intros ->.
        { apply Hbl'. set_solver. }
        apply (Hdisj (next hb)); [|set_solver].
        rewrite Hnext. pose proof (head_of_elem l (sentinel k)). set_solver.
  - rewrite cache_length_push_st. rewrite <- (inv_perm _ _ _ Hinv).
    destruct (mjoin_insert ls k _ (Slot ib :: l) Hl) as (a & c & -> & ->).
    simpl. by rewrite <- !Permutation_middle.
  - intros k' l' x bb' Hl' Hk' Hx Hs.
    destruct (payload_sel_eq _ _ _ _ (payload_push_st _ _ st x) Hs) as (bb0 & Hs0 & Hp).
    apply payload_eq in Hp as (_ & _ & -> & _).
    destruct (decide (k = k')) as [<-|Hne].
    + rewrite list_lookup_insert_eq in Hl' by by eapply lookup_lt_Some. simplify_eq.
      apply elem_of_cons in Hx as [->|Hx]; [by simplify_eq; apply Hh|].
      by eapply (inv_hash _ _ _ Hinv).
    + rewrite list_lookup_insert_ne in Hl' by done.
      by eapply (inv_hash _ _ _ Hinv).
  - intros i bb'. change (cache ?s !! i) with (sel s (Slot i)).
    intros Hs.
    destruct (payload_sel_eq _ _ _ _ (payload_push_st _ _ st _) Hs) as (bb0 & Hs0 & Hp).
    apply payload_eq in Hp as (_ & _ & -> & _ & -> & _).
    by apply (inv_slot _ _ _ Hinv i).
  - intros hd bb' Hhd Hs.
    destruct (payload_sel_eq _ _ _ _ (payload_push_st _ _ st _) Hs) as (bb0 & Hs0 & Hp).
    apply payload_eq in Hp as (_ & _ & -> & -> & _).
    by apply (inv_sentinel _ _ _ Hinv hd).
Qed.

(** ** Running the operations *)

Lemma wrap32_range x : 0 ≤ wrap32 x < 2 ^ 32.
Proof. unfold wrap32. apply Z.mod_pos_bound. done. Qed.

Lemma release_run l st : lock_exists l → release l st = Done tt st [Release l].
Proof. intros. unfold release. by rewrite decide_True. Qed.

Lemma bind_unlink {B} b (k : M B) st bb :
  sel st b = Some bb → next bb ≠ b →
  is_Some (sel st (next bb)) → is_Some (sel st (prev bb)) →
  ((bb <- load b ;; store (next bb) (with_prev (prev bb))) ;;;
   (bb <- load b ;; store (prev bb) (with_next (next bb))) ;;; k) st
  = k (unlink_st b st).
Proof.
  intros Hb Hne [nb Hn] [pb Hp].
  rewrite bind_bind. erewrite bind_load by done. erewrite bind_store by done.
  rewrite bind_bind. erewrite bind_load by by rewrite sel_upd_ne.
  assert (is_Some (sel (upd (next bb) (with_prev (prev bb)) st) (prev bb))) as [? Hp'].
  { rewrite is_Some_sel_upd. eauto. }
  erewrite bind_store by done. unfold unlink_st. by rewrite Hb.
Qed.

Lemma bind_push3 {B} hd b (k : M B) st hb :
  sel st hd = Some hb → b ≠ hd →
  is_Some (sel st b) → is_Some (sel st (next hb)) →
  ((hb <- load hd ;; store b (with_next (next hb))) ;;;
   store b (with_prev hd) ;;;
   (hb <- load hd ;; store (next hb) (with_prev b)) ;;; k) st
  = k (upd (next hb) (with_prev b) (upd b (with_prev hd)
        (upd b (with_next (next hb)) st))).
Proof.
  intros Hhd Hne [bb Hb] [nb Hn].
  rewrite bind_bind. erewrite bind_load by done. erewrite bind_store by done.
  assert (is_Some (sel (upd b (with_next (next hb)) st) b)) as [? Hb1].
  { rewrite is_Some_sel_upd. eauto. }
  erewrite bind_store by done.
  rewrite bind_bind. erewrite bind_load by by rewrite !sel_upd_ne.
  assert (is_Some (sel (upd b (with_prev hd) (upd b (with_next (next hb)) st)) (next hb)))
    as [? Hn1].
  { rewrite !is_Some_sel_upd. eauto. }
  by erewrite bind_store by done.
Qed.

Lemma bind_push {B} hd b (k : M B) st hb :
  sel st hd = Some hb → b ≠ hd →
  is_Some (sel st b) → is_Some (sel st (next hb)) →
  ((hb <- load hd ;; store b (with_next (next hb))) ;;;
   store b (with_prev hd) ;;;
   (hb <- load hd ;; store (next hb) (with_prev b)) ;;;
   store hd (with_next b) ;;; k) st
  = k (push_st hd b st).
Proof.
  intros Hhd Hne Hb Hn. rewrite (bind_push3 _ _ _ _ _ Hhd Hne Hb Hn).
  assert (is_Some (sel (upd (next hb) (with_prev b) (upd b (with_prev hd)
            (upd b (with_next (next hb)) st))) hd)) as [? Hh1].
  { rewrite !is_Some_sel_upd. eauto. }
  erewrite bind_store by done. unfold push_st. by rewrite Hhd.
Qed.

Lemma push_run hd b st hb :
  sel st hd = Some hb → b ≠ hd →
  is_Some (sel st b) → is_Some (sel st (next hb)) →
  ((hb <- load hd ;; store b (with_next (next hb))) ;;;
   store b (with_prev hd) ;;;
   (hb <- load hd ;; store (next hb) (with_prev b)) ;;;
   store hd (with_next b)) st
  = Done tt (push_st hd b st) [].
Proof.
  intros Hhd Hne Hb Hn. rewrite (bind_push3 _ _ _ _ _ Hhd Hne Hb Hn).
  assert (is_Some (sel (upd (next hb) (with_prev b) (upd b (with_prev hd)
            (upd b (with_next (next hb)) st))) hd)) as [? Hh1].
  { rewrite !is_Some_sel_upd. eauto. }
  unfold store. rewrite Hh1. unfold push_st. by rewrite Hhd.
Qed.

Lemma acquiresleep_ret st b bb pid :
  sel st b = Some bb →
  (acquiresleep b pid ;;; ret b) st =
    match lock bb with
    | None => Done b (upd b (with_lock (Some pid)) st) [AcquireSleep b pid]
    | Some _ => Sleeping b st []
    end.
Proof. intros Hb. unfold bind, acquiresleep. rewrite Hb. by destruct (lock bb). Qed.

(** The state after [refcnt++] and after [refcnt--] on [b]. *)
Definition incr_st (b : ptr) (bb : buf) (st : state) : state :=
  upd b (with_refcnt (wrap32 (refcnt bb + 1))) st.
Definition decr_st (b : ptr) (bb : buf) (st : state) : state :=
  upd b (with_refcnt (wrap32 (refcnt bb - 1))) st.

Lemma bpin_run st b bb :
  sel st b = Some bb → 0 ≤ hash (blockno bb) < NHASH →
  bpin b st = Done tt (incr_st b bb st)
    [Acquire (BucketLock (hash (blockno bb))); Release (BucketLock (hash (blockno bb)))].
Proof.
  intros Hb Hh. unfold bpin. erewrite bind_load by done.
  rewrite bind_acquire by done. rewrite bind_bind.
  erewrite bind_load by done. erewrite bind_store by done.
  by rewrite release_run.
Qed.

Lemma bunpin_run st b bb :
  sel st b = Some bb → 0 ≤ hash (blockno bb) < NHASH →
  bunpin b st = Done tt (decr_st b bb st)
    [Acquire (BucketLock (hash (blockno bb))); Release (BucketLock (hash (blockno bb)))].
Proof.
  intros Hb Hh. unfold bunpin. erewrite bind_load by done.
  rewrite bind_acquire by done. rewrite bind_bind.
  erewrite bind_load by done. erewrite bind_store by done.
  by rewrite release_run.
Qed.

(** The state after [virtio_disk_rw(b, 1)]. *)
Definition written_st (bb : buf) (st : state) : state :=
  State (hash_table st) (freelist_head st) (cache st)
        (<[(dev bb, blockno bb) := data bb]> (disk st)).

Lemma bwrite_run st pid b bb :
  sel st b = Some bb →
  bwrite pid b st =
    if decide (lock bb = Some pid)
    then Done tt (written_st bb st) [DiskRW b true]
    else Panic "bwrite" st [].
Proof.
  intros Hb. unfold bwrite, holdingsleep. rewrite bind_bind.
  erewrite bind_load by done. rewrite bind_ret.
  case_decide as Hl.
  - rewrite bool_decide_eq_true_2 by done. rewrite bind_ret.
    unfold virtio_disk_rw. by erewrite bind_load by done.
  - by rewrite bool_decide_eq_false_2 by done.
Qed.

Lemma brelse_run_panic st pid b bb :
  sel st b = Some bb → lock bb ≠ Some pid → brelse pid b st = Panic "brelse" st [].
Proof.
  intros Hb Hl. unfold brelse, holdingsleep. rewrite bind_bind.
  erewrite bind_load by done. rewrite bind_ret.
  by rewrite bool_decide_eq_false_2 by done.
Qed.

(** The state of [brelse] after [releasesleep] and [refcnt--]. *)
Definition released_st (b : ptr) (bb : buf) (st : state) : state :=
  decr_st b bb (upd b (with_lock None) st).

Lemma bind_Done {A B} (m : M A) (k : A → M B) st a s t :
  m st = Done a s t → bind m k st = prepend t (k a s).
Proof. intros H. unfold bind. by rewrite H. Qed.

(** What the invariant says about a linked buffer and about a sentinel. *)
Lemma inv_neighbours st ls det k l1 b l2 bb :
  invd st ls det → ls !! k = Some (l1 ++ b :: l2) → sel st b = Some bb →
  next bb = head_of l2 (sentinel k) ∧ prev bb = last_of (sentinel k) l1 ∧
  is_Some (sel st (next bb)) ∧ is_Some (sel st (prev bb)) ∧ next bb ≠ b ∧ prev bb ≠ b.
Proof.
  intros Hinv Hl Hbb.
  pose proof (inv_ring _ _ _ Hinv _ _ Hl) as Hr.
  pose proof (inv_nodup_ring Hinv _ _ Hl) as Hd.
  unfold ring in Hr. apply links_app in Hr as [Hr1 Hr2].
  assert (prev bb = last_of (sentinel k) l1) as Hprev.
  { apply links_prv_last in Hr1. unfold prv in Hr1. rewrite Hbb in Hr1. by simplify_eq/=. }
  assert (next bb = head_of l2 (sentinel k)) as Hnext.
  { apply links_nxt_head in Hr2. unfold nxt in Hr2. rewrite Hbb in Hr2. by simplify_eq/=. }
  split_and!; try done.
  - apply links_prv_head in Hr2. rewrite <- Hnext in Hr2. unfold prv in Hr2.
    destruct (sel st (next bb)); [eauto|done].
  - apply links_nxt_last in Hr1. rewrite <- Hprev in Hr1. unfold nxt in Hr1.
    destruct (sel st (prev bb)); [eauto|done].
  - rewrite Hnext. intros E. pose proof (head_of_elem l2 (sentinel k)) as Hin.
    rewrite E in Hin. apply NoDup_cons in Hd as [Hd1 Hd2].
    apply NoDup_app in Hd2 as (_ & _ & Hd2). apply NoDup_cons in Hd2 as [Hd2 _].
    apply elem_of_app in Hin as [?|Hin]; [done|].
    apply list_elem_of_singleton in Hin. subst b. apply Hd1. set_solver.
  - rewrite Hprev. intros E. pose proof (last_of_elem (sentinel k) l1) as Hin.
    rewrite E in Hin. apply NoDup_cons in Hd as [Hd1 Hd2].
    apply elem_of_cons in Hin as [->|Hin]; [apply Hd1; set_solver|].
    apply NoDup_app in Hd2 as (_ & Hd2 & _). apply (Hd2 b); set_solver.
Qed.

Lemma inv_head_next st ls det k hb :
  invd st ls det → (k ≤ FREE)%nat → sel st (sentinel k) = Some hb →
  is_Some (sel st (next hb)).
Proof.
  intros Hinv Hk Hhb. destruct (inv_lookup Hinv k Hk) as [l Hl].
  pose proof (inv_ring _ _ _ Hinv _ _ Hl) as Hr. unfold ring in Hr.
  pose proof (links_nxt_head _ _ _ _ Hr) as Hn. unfold nxt in Hn. rewrite Hhb in Hn.
  simplify_eq/=. apply links_prv_head in Hr. rewrite <- Hn in Hr. unfold prv in Hr.
  destruct (sel st (next hb)); [eauto|done].
Qed.

Lemma inv_locked_slot st ls det b bb :
  invd st ls det → sel st b = Some bb → is_Some (lock bb) →
  ∃ i, b = Slot i ∧ (i < length (cache st))%nat.
Proof.
  intros Hinv Hb [pid Hl]. destruct b as [|i|h|]; simpl in Hb; try done.
  - exists i. split; [done|]. by eapply lookup_lt_Some.
  - assert (is_sentinel (BucketHead h)) as Hs by (right; eauto).
    destruct (inv_sentinel _ _ _ Hinv _ _ Hs Hb). congruence.
  - assert (is_sentinel FreelistHead) as Hs by by left.
    destruct (inv_sentinel _ _ _ Hinv _ _ Hs Hb). congruence.
Qed.

Lemma inv_elem_split st ls i :
  inv st ls → (i < length (cache st))%nat →
  ∃ k l1 l2, ls !! k = Some (l1 ++ Slot i :: l2).
Proof.
  intros Hinv Hi.
  assert (Slot i ∈ [] ++ mjoin ls) as Hin by (apply (inv_elem Hinv); eauto).
  simpl in Hin. apply list_elem_of_join in Hin as (l & Hin & Hl).
  apply list_elem_of_lookup in Hl as [k Hk].
  apply list_elem_of_split in Hin as (l1 & l2 & ->). eauto.
Qed.

Lemma inv_released st ls pid b bb :
  inv st ls → sel st b = Some bb → lock bb = Some pid →
  inv (released_st b bb st) ls ∧
  sel (released_st b bb st) b =
    Some (with_refcnt (wrap32 (refcnt bb - 1)) (with_lock None bb)).
Proof.
  intros Hinv Hb Hl.
  destruct (inv_locked_slot _ _ _ _ _ Hinv Hb) as (i & -> & Hi); [by rewrite Hl|].
  pose proof (wrap32_range (refcnt bb - 1)).
  split.
  - unfold released_st, decr_st. apply invd_upd; [|done|].
    + apply invd_upd; [done|done|]. intros bb0 ?. simplify_eq. simpl.
      pose proof (inv_slot _ _ _ Hinv i bb Hb). split_and!; try done; try tauto.
      intros [?|[? ?]]; done.
    + intros bb0 _. simpl. split_and!; try done; apply H.
  - unfold released_st, decr_st. rewrite !sel_upd_eq. by rewrite Hb.
Qed.

Lemma brelse_run st ls pid b bb :
  inv st ls → sel st b = Some bb → lock bb = Some pid →
  let h := hash (blockno bb) in
  brelse pid b st =
    if decide (wrap32 (refcnt bb - 1) = 0)
    then Done tt (push_st FreelistHead b (unlink_st b (released_st b bb st)))
           [ReleaseSleep b; Acquire (BucketLock h); Acquire FreelistLock;
            Release FreelistLock; Release (BucketLock h)]
    else Done tt (released_st b bb st)
           [ReleaseSleep b; Acquire (BucketLock h); Release (BucketLock h)].
Proof.
  intros Hinv Hb Hl h.
  destruct (inv_released _ _ _ _ _ Hinv Hb Hl) as [Hinv2 Hb2].
  destruct (inv_locked_slot _ _ _ _ _ Hinv Hb) as (i & -> & Hi); [by rewrite Hl|].
  assert (0 ≤ h < NHASH) as Hh by by apply (inv_slot _ _ _ Hinv i).
  unfold brelse, holdingsleep. rewrite bind_bind.
  erewrite bind_load by done. rewrite bind_ret.
  rewrite bool_decide_eq_true_2 by done. rewrite bind_ret.
  unfold releasesleep. rewrite bind_bind. erewrite bind_store by done.
  rewrite bind_emit. erewrite bind_load by by rewrite sel_upd_eq, Hb.
  cbv zeta. change (blockno (with_lock None bb)) with (blockno bb). fold h.
  rewrite bind_acquire by done. rewrite bind_bind.
  erewrite bind_load by by rewrite sel_upd_eq, Hb.
  erewrite bind_store by by rewrite sel_upd_eq, Hb.
  change (refcnt (with_lock None bb)) with (refcnt bb).
  fold (decr_st (Slot i) bb (upd (Slot i) (with_lock None) st)).
  fold (released_st (Slot i) bb st).
  erewrite bind_load by done. simpl refcnt.
  case_decide as Hz.
  - destruct (inv_elem_split _ _ i Hinv2) as (k & l1 & l2 & Hk).
    { unfold released_st, decr_st. by rewrite !cache_length_upd. }
    destruct (inv_neighbours _ _ _ _ _ _ _ _ Hinv2 Hk Hb2) as (_ & _ & Hn & Hp & Hne & _).
    pose proof (invd_unlink _ _ _ _ _ _ Hinv2 Hk) as Hinv3.
    destruct (inv_sel_sentinel Hinv3 FREE) as [hb Hhb]. rewrite sentinel_free in Hhb.
    erewrite bind_Done; cycle 1.
    { rewrite (bind_unlink _ _ _ _ Hb2 Hne Hn Hp).
      rewrite bind_acquire by done.
      erewrite (bind_push _ _ _ _ _ Hhb); [by rewrite release_run| | |].
      + done.
      + apply (inv_elem_sel Hinv3). set_solver.
      + apply (inv_head_next _ _ _ FREE _ Hinv3); [done|by rewrite sentinel_free]. }
    by rewrite release_run by done.
  - rewrite bind_ret. by rewrite release_run.
Qed.



Lemma inv_brelse_zero st ls pid b bb k l1 l2 :
  inv st ls → sel st b = Some bb → lock bb = Some pid →
  ls !! k = Some (l1 ++ b :: l2) →
  ∃ fl, <[k := l1 ++ l2]> ls !! FREE = Some fl ∧
    inv (push_st FreelistHead b (unlink_st b (released_st b bb st)))
        (<[FREE := b :: fl]> (<[k := l1 ++ l2]> ls)).
Proof.
  intros Hinv Hb Hl Hk.
  destruct (inv_released _ _ _ _ _ Hinv Hb Hl) as [Hinv2 Hb2].
  pose proof (invd_unlink _ _ _ _ _ _ Hinv2 Hk) as Hinv3.
  destruct (inv_lookup Hinv3 FREE) as [fl Hfl]; [done|].
  exists fl. split; [done|].
  destruct (inv_elem_sel Hinv3 b) as [bb3 Hb3]; [set_solver|].
  rewrite <- sentinel_free. eapply invd_push; [done|done|done|]. lia.
Qed.

(** The state of [bget]'s miss path after the buffer has been taken off
    the free list and given its new identity, and after it has been put on
    its bucket. *)
Definition rekeyed_st (b : ptr) (d n : Z) (st : state) : state :=
  upd b (with_refcnt 1) (upd b (with_valid 0)
    (upd b (with_blockno n) (upd b (with_dev d) (unlink_st b st)))).
Definition claimed_st (b : ptr) (d n : Z) (st : state) : state :=
  push_st (BucketHead (hash n)) b (rekeyed_st b d n st).

Lemma sel_unlink_st_self st ls det k l1 b l2 bb :
  invd st ls det → ls !! k = Some (l1 ++ b :: l2) → sel st b = Some bb →
  sel (unlink_st b st) b = Some bb.
Proof.
  intros Hinv Hk Hb.
  destruct (inv_neighbours _ _ _ _ _ _ _ _ Hinv Hk Hb) as (_ & _ & _ & _ & Hn & Hp).
  unfold unlink_st. rewrite Hb. by rewrite !sel_upd_ne.
Qed.

Lemma inv_rekeyed st ls l1 b l2 bb d n :
  inv st ls → ls !! FREE = Some (l1 ++ b :: l2) → sel st b = Some bb →
  0 ≤ hash n < NHASH →
  invd (rekeyed_st b d n st) (<[FREE := l1 ++ l2]> ls) [b] ∧
  sel (rekeyed_st b d n st) b =
    Some (with_refcnt 1 (with_valid 0 (with_blockno n (with_dev d bb)))).
Proof.
  intros Hinv Hk Hb Hn.
  pose proof (invd_unlink _ _ _ _ _ _ Hinv Hk) as Hinv1.
  pose proof (sel_unlink_st_self _ _ _ _ _ _ _ _ Hinv Hk Hb) as Hb1.
  assert (b ∈ [b]) as Hbd by set_solver.
  destruct (inv_det_slot Hinv1 _ Hbd) as (i & -> & Hi).
  pose proof (inv_slot _ _ _ Hinv i bb Hb) as [Hh Hr].
  split.
  - unfold rekeyed_st.
    repeat (apply invd_upd_det; [|done|done|]); [done|..];
      intros bb0; rewrite ?sel_upd_eq, Hb1; intros ?; simplify_eq/=; done.
  - unfold rekeyed_st. rewrite !sel_upd_eq. by rewrite Hb1.
Qed.

Lemma inv_claimed st ls l1 b l2 bb d n l :
  inv st ls → ls !! FREE = Some (l1 ++ b :: l2) → sel st b = Some bb →
  0 ≤ hash n < NHASH → ls !! Z.to_nat (hash n) = Some l →
  inv (claimed_st b d n st)
      (<[Z.to_nat (hash n) := b :: l]> (<[FREE := l1 ++ l2]> ls)) ∧
  ∃ bb', sel (claimed_st b d n st) b = Some bb' ∧
    payload bb' = payload (with_refcnt 1 (with_valid 0 (with_blockno n (with_dev d bb)))).
Proof.
  intros Hinv Hk Hb Hn Hl.
  destruct (inv_rekeyed _ _ _ _ _ _ d n Hinv Hk Hb Hn) as [Hinv1 Hb1].
  split.
  - unfold claimed_st. rewrite <- sentinel_bucket by done.
    eapply invd_push; [done| |done|].
    + rewrite list_lookup_insert_ne; [done|]. unfold FREE. unfold NHASH in *. lia.
    + intros _. simpl. lia.
  - pose proof (payload_push_st (BucketHead (hash n)) b (rekeyed_st b d n st) b) as Hp.
    rewrite Hb1 in Hp. unfold claimed_st.
    destruct (sel (push_st _ _ _) b) as [bb'|]; [|done].
    exists bb'. split; [done|]. simpl in Hp. congruence.
Qed.

Lemma inv_incr st ls b bb :
  inv st ls → sel st b = Some bb →
  inv (incr_st b bb st) ls ∧
  sel (incr_st b bb st) b = Some (with_refcnt (wrap32 (refcnt bb + 1)) bb).
Proof.
  intros Hinv Hb. unfold incr_st. split; [|by rewrite sel_upd_eq, Hb].
  apply invd_upd; [done|done|]. intros bb0 _. simpl. split_and!; try done.
  all: apply wrap32_range.
Qed.

Lemma inv_decr st ls b bb :
  inv st ls → sel st b = Some bb →
  inv (decr_st b bb st) ls ∧
  sel (decr_st b bb st) b = Some (with_refcnt (wrap32 (refcnt bb - 1)) bb).
Proof.
  intros Hinv Hb. unfold decr_st. split; [|by rewrite sel_upd_eq, Hb].
  apply invd_upd; [done|done|]. intros bb0 _. simpl. split_and!; try done.
  all: apply wrap32_range.
Qed.

Lemma inv_lock st ls i bb pid :
  inv st ls → sel st (Slot i) = Some bb →
  inv (upd (Slot i) (with_lock pid) st) ls.
Proof.
  intros Hinv Hb. apply invd_upd; [done|done|]. intros bb0 ?. simplify_eq/=.
  pose proof (inv_slot _ _ _ Hinv i _ Hb). split_and!; try done; try tauto.
  intros [?|[? ?]]; done.
Qed.

(** How [bget] ends once the buffer [b] is chosen: with the sleep lock
    free the caller gets it, otherwise the caller sleeps. *)
Definition lock_or_sleep (pid : Z) (b : ptr) (held : option Z) (st : state) : outcome ptr :=
  match held with
  | None => Done b (upd b (with_lock (Some pid)) st) [AcquireSleep b pid]
  | Some _ => Sleeping b st []
  end.

Lemma bget_scan st ls d n l :
  inv st ls → 0 ≤ hash n < NHASH → ls !! Z.to_nat (hash n) = Some l →
  ∃ hb, sel st (BucketHead (hash n)) = Some hb ∧
    scan_bucket (scan_budget st) (BucketHead (hash n)) d n (next hb) st
    = Done (first_such st (is_block d n) l) st [].
Proof.
  intros Hinv Hn Hl.
  destruct (inv_sel_sentinel Hinv (Z.to_nat (hash n))) as [hb Hhb].
  pose proof (inv_ring _ _ _ Hinv _ _ Hl) as Hr.
  pose proof (inv_sentinel_not_elem Hinv _ (Z.to_nat (hash n)) _ Hl) as Hne.
  rewrite sentinel_bucket in Hhb, Hr, Hne by done.
  exists hb. split; [done|].
  eapply scan_bucket_links; [exact Hr|done| |].
  - unfold nxt. by rewrite Hhb.
  - unfold scan_budget. pose proof (inv_length_list Hinv _ _ Hl). lia.
Qed.

Lemma bget_scan_free st ls fl :
  inv st ls → ls !! FREE = Some fl →
  scan_free (scan_budget st) (next (freelist_head st)) st
  = Done (first_such st is_unused fl) st [].
Proof.
  intros Hinv Hl.
  pose proof (inv_ring _ _ _ Hinv _ _ Hl) as Hr.
  pose proof (inv_sentinel_not_elem Hinv _ FREE _ Hl) as Hne.
  rewrite sentinel_free in Hr, Hne.
  eapply scan_free_links; [exact Hr|done|done|].
  unfold scan_budget. pose proof (inv_length_list Hinv _ _ Hl). lia.
Qed.

Lemma bget_run_hit st ls pid d n l b bb :
  inv st ls → 0 ≤ hash n < NHASH → ls !! Z.to_nat (hash n) = Some l →
  first_such st (is_block d n) l = Some b → sel st b = Some bb →
  bget pid d n st =
    prepend [Acquire (BucketLock (hash n)); Release (BucketLock (hash n))]
      (lock_or_sleep pid b (lock bb) (incr_st b bb st)).
Proof.
  intros Hinv Hn Hl Hf Hb.
  destruct (bget_scan _ _ d n _ Hinv Hn Hl) as (hb & Hhb & Hscan).
  unfold bget. cbv zeta. rewrite bind_acquire by done.
  erewrite bind_load by done.
  erewrite bind_Done by exact Hscan. rewrite prepend_nil, Hf.
  rewrite bind_bind. erewrite bind_load by done. erewrite bind_store by done.
  rewrite bind_release by done. fold (incr_st b bb st).
  erewrite acquiresleep_ret by (unfold incr_st; by rewrite sel_upd_eq, Hb).
  simpl lock. rewrite prepend_prepend. done.
Qed.

Lemma bget_run_miss st ls pid d n l l1 b l2 bb :
  inv st ls → 0 ≤ hash n < NHASH → ls !! Z.to_nat (hash n) = Some l →
  first_such st (is_block d n) l = None →
  ls !! FREE = Some (l1 ++ b :: l2) →
  first_such st is_unused (l1 ++ b :: l2) = Some b → sel st b = Some bb →
  bget pid d n st =
    prepend [Acquire (BucketLock (hash n)); Acquire FreelistLock;
             Release FreelistLock; Release (BucketLock (hash n))]
      (lock_or_sleep pid b (lock bb) (claimed_st b d n st)).
Proof.
  intros Hinv Hn Hl Hf Hfl Hu Hb.
  destruct (bget_scan _ _ d n _ Hinv Hn Hl) as (hb & Hhb & Hscan).
  pose proof (bget_scan_free _ _ _ Hinv Hfl) as Hscan2.
  destruct (inv_neighbours _ _ _ _ _ _ _ _ Hinv Hfl Hb) as (_ & _ & Hsn & Hsp & Hne & _).
  destruct (inv_rekeyed _ _ _ _ _ _ d n Hinv Hfl Hb Hn) as [Hinv1 Hb1].
  destruct (inv_claimed _ _ _ _ _ _ d n _ Hinv Hfl Hb Hn Hl) as [_ (bb' & Hb' & Hp)].
  assert (b ∈ [b]) as Hbd by set_solver.
  destruct (inv_det_slot Hinv1 _ Hbd) as (i & -> & Hi).
  unfold bget. cbv zeta. rewrite bind_acquire by done.
  erewrite bind_load by done.
  erewrite bind_Done by exact Hscan. rewrite prepend_nil, Hf.
  rewrite bind_acquire by done.
  erewrite bind_load by done.
  erewrite bind_Done by exact Hscan2. rewrite prepend_nil, Hu.
  rewrite (bind_unlink _ _ _ _ Hb Hne Hsn Hsp).
  rewrite bind_release by done.
  assert (∀ f st0, is_Some (sel st0 (Slot i)) → is_Some (sel (upd (Slot i) f st0) (Slot i)))
    as Hstep by (intros; by rewrite is_Some_sel_upd).
  assert (is_Some (sel (unlink_st (Slot i) st) (Slot i))) as Hs0.
  { erewrite sel_unlink_st_self; eauto. }
  pose proof (Hstep (with_dev d) _ Hs0) as Hs1.
  pose proof (Hstep (with_blockno n) _ Hs1) as Hs2.
  pose proof (Hstep (with_valid 0) _ Hs2) as Hs3.
  destruct Hs0 as [? Hs0], Hs1 as [? Hs1], Hs2 as [? Hs2], Hs3 as [? Hs3].
  erewrite bind_store by exact Hs0. erewrite bind_store by exact Hs1.
  erewrite bind_store by exact Hs2. erewrite bind_store by exact Hs3.
  fold (rekeyed_st (Slot i) d n st).
  destruct (inv_sel_sentinel Hinv1 (Z.to_nat (hash n))) as [hb1 Hhb1].
  assert (is_Some (sel (rekeyed_st (Slot i) d n st) (next hb1))) as Hnx.
  { eapply (inv_head_next _ _ _ (Z.to_nat (hash n)) hb1 Hinv1); [|done].
    unfold FREE, NHASH in *. lia. }
  rewrite sentinel_bucket in Hhb1 by done.
  erewrite (bind_push _ _ _ _ _ Hhb1); [|done|by rewrite Hb1|done].
  rewrite bind_release by done. fold (claimed_st (Slot i) d n st).
  erewrite acquiresleep_ret by exact Hb'.
  apply payload_eq in Hp as (_ & _ & _ & -> & _). simpl lock.
  rewrite !prepend_prepend. done.
Qed.

Lemma bget_run_panic st ls pid d n l fl :
  inv st ls → 0 ≤ hash n < NHASH → ls !! Z.to_nat (hash n) = Some l →
  first_such st (is_block d n) l = None →
  ls !! FREE = Some fl → first_such st is_unused fl = None →
  bget pid d n st =
    Panic "bget: no buffers" st
      [Acquire (BucketLock (hash n)); Acquire FreelistLock; Release FreelistLock].
Proof.
  intros Hinv Hn Hl Hf Hfl Hu.
  destruct (bget_scan _ _ d n _ Hinv Hn Hl) as (hb & Hhb & Hscan).
  pose proof (bget_scan_free _ _ _ Hinv Hfl) as Hscan2.
  unfold bget. cbv zeta. rewrite bind_acquire by done.
  erewrite bind_load by done.
  erewrite bind_Done by exact Hscan. rewrite prepend_nil, Hf.
  rewrite bind_acquire by done.
  erewrite bind_load by done.
  erewrite bind_Done by exact Hscan2. rewrite prepend_nil, Hu.
  rewrite bind_release by done. done.
Qed.

(** The state after [virtio_disk_rw(b, 0)] and [b->valid = 1]. *)
Definition loaded_st (b : ptr) (bb : buf) (st : state) : state :=
  upd b (with_valid 1)
    (upd b (with_data (default [] (disk st !! (dev bb, blockno bb)))) st).

Lemma bread_run st pid d n :
  bread pid d n st =
    match bget pid d n st with
    | Done b s t =>
        match sel s b with
        | Some bb =>
            if decide (valid bb = 0)
            then Done b (loaded_st b bb s) (t ++ [DiskRW b false])
            else Done b s t
        | None => Fault
        end
    | Panic m s t => Panic m s t
    | Sleeping b s t => Sleeping b s t
    | Fault => Fault
    | OutOfFuel => OutOfFuel
    end.
Proof.
  unfold bread. unfold bind at 1. destruct (bget pid d n st) as [b s t| | | |]; try done.
  destruct (sel s b) as [bb|] eqn:Hb.
  - erewrite bind_load by done. case_decide.
    + rewrite bind_bind. unfold virtio_disk_rw. rewrite bind_bind.
      erewrite bind_load by done.
      unfold bind at 1. cbn [prepend]. unfold bind at 1.
      unfold store at 1. rewrite sel_upd_eq, Hb. simpl. done.
    + rewrite !bind_ret. simpl. by rewrite app_nil_r.
  - unfold bind, load. by rewrite Hb.
Qed.

(** ** Initialisation *)

Definition self_linked (p : ptr) : buf := Buf 0 0 0 None 0 p p [].

(** The globals after the first loop of [binit] and the two stores into
    [freelist_head]. *)
Definition heads_st (nbuf : nat) : state :=
  State ((λ i, self_linked (BucketHead (Z.of_nat i))) <$> seq 0 FREE)
        (self_linked FreelistHead) (replicate nbuf zero_buf) ∅.

(** The lists of a cache whose free list is [fl] and whose buckets are
    empty. *)
Definition only_free (fl : list ptr) : list (list ptr) := replicate FREE [] ++ [fl].

Lemma only_free_lookup fl k l :
  only_free fl !! k = Some l → (k < FREE ∧ l = [])%nat ∨ (k = FREE ∧ l = fl).
Proof.
  unfold only_free. intros H. apply lookup_app_Some in H as [H|[H1 H2]].
  - apply lookup_replicate in H as [-> ?]. by left.
  - rewrite length_replicate in H1, H2. right.
    destruct (k - FREE)%nat as [|m] eqn:E; simpl in H2; [|done].
    simplify_eq. split; [lia|done].
Qed.

Lemma only_free_lookup_free fl : only_free fl !! FREE = Some fl.
Proof. done. Qed.

Lemma only_free_insert fl fl' : <[FREE := fl']> (only_free fl) = only_free fl'.
Proof. done. Qed.

Lemma mjoin_only_free fl : mjoin (only_free fl) = fl.
Proof. unfold only_free. cbn. apply app_nil_r. Qed.

Lemma invd_heads nbuf : invd (heads_st nbuf) (only_free []) (Slot <$> seq 0 nbuf).
Proof.
  split.
  - done.
  - done.
  - intros k l [[Hk ->]| [-> ->]]%only_free_lookup.
    + unfold ring, sentinel. rewrite decide_True by done. simpl.
      unfold nxt, prv. cbn [sel heads_st hash_table]. rewrite decide_True by lia. rewrite Nat2Z.id.
      rewrite list_lookup_fmap, lookup_seq_lt by done. done.
    + rewrite sentinel_free. done.
  - rewrite mjoin_only_free, app_nil_r. simpl. by rewrite length_replicate.
  - intros k l x bb [[Hk ->]| [-> ->]]%only_free_lookup; [set_solver|lia].
  - intros i bb [-> _]%lookup_replicate. done.
  - intros hd bb [->|[h ->]]; cbn [sel heads_st hash_table freelist_head].
    + by intros [= <-].
    + case_decide; [|done]. rewrite list_lookup_fmap.
      destruct (seq 0 FREE !! Z.to_nat h); simpl; [|done]. by intros [= <-].
Qed.

Lemma binit_heads nbuf :
  binit (boot nbuf) =
  for_each (seq 0 nbuf) (λ i,
    let b := Slot i in
    initsleeplock b ;;;
    (fh <- load FreelistHead ;; store b (with_next (next fh))) ;;;
    store b (with_prev FreelistHead) ;;;
    (fh <- load FreelistHead ;; store (next fh) (with_prev b)) ;;;
    store FreelistHead (with_next b)) (heads_st nbuf).
Proof.
  unfold binit.
  erewrite (bind_Done _ _ _ tt
    (State ((λ i, self_linked (BucketHead (Z.of_nat i))) <$> seq 0 FREE)
           zero_buf (replicate nbuf zero_buf) ∅) []) by reflexivity.
  rewrite prepend_nil. erewrite bind_store by reflexivity.
  erewrite bind_store by reflexivity.
  simpl. by rewrite length_replicate.
Qed.

Lemma binit_loop k : ∀ a st fl,
  invd st (only_free fl) (Slot <$> seq a k) →
  (∀ i bb, sel st (Slot i) = Some bb → lock bb = None) →
  ∃ st',
    for_each (seq a k) (λ i,
      let b := Slot i in
      initsleeplock b ;;;
      (fh <- load FreelistHead ;; store b (with_next (next fh))) ;;;
      store b (with_prev FreelistHead) ;;;
      (fh <- load FreelistHead ;; store (next fh) (with_prev b)) ;;;
      store FreelistHead (with_next b)) st = Done tt st' [] ∧
    inv st' (only_free (reverse (Slot <$> seq a k) ++ fl)) ∧
    length (cache st') = length (cache st) ∧
    ∀ x, payload <$> sel st' x = payload <$> sel st x.
Proof.
  induction k as [|k IH]; intros a st fl Hinv Hlock.
  - exists st. split; [done|]. by split.
  - cbn [seq fmap list_fmap] in Hinv. cbn [seq for_each].
    assert (Slot a ∈ Slot a :: (Slot <$> seq (S a) k)) as Hin by set_solver.
    destruct (inv_det_slot Hinv _ Hin) as (? & [= <-] & Ha).
    destruct (lookup_lt_is_Some_2 (cache st) a Ha) as [ab Hab].
    change (sel st (Slot a) = Some ab) in Hab.
    pose proof (inv_slot _ _ _ Hinv a ab Hab) as [Hh Hr].
    assert (invd (upd (Slot a) (with_lock None) st) (only_free fl)
              (Slot a :: (Slot <$> seq (S a) k))) as Hinv1.
    { apply invd_upd_det; [done|done|done|]. intros bb ?. by simplify_eq/=. }
    destruct (inv_sel_sentinel Hinv1 FREE) as [hb Hhb]. rewrite sentinel_free in Hhb.
    assert (invd (push_st FreelistHead (Slot a) (upd (Slot a) (with_lock None) st))
              (only_free (Slot a :: fl)) (Slot <$> seq (S a) k)) as Hinv2.
    { rewrite <- sentinel_free, <- (only_free_insert fl).
      eapply invd_push; [exact Hinv1|done|by rewrite sel_upd_eq, Hab|]. lia. }
    assert (∀ x, payload <$> sel (push_st FreelistHead (Slot a)
                   (upd (Slot a) (with_lock None) st)) x = payload <$> sel st x) as Hsame.
    { intros x. rewrite payload_push_st, sel_upd. case_decide as E; [|done].
      subst x. rewrite Hab. simpl. unfold payload. simpl.
      by rewrite (Hlock a ab Hab). }
    destruct (IH _ _ _ Hinv2) as (st' & Hrun & Hinv' & Hlen & Hpay).
    { intros i bb Hb. destruct (payload_sel_eq _ _ _ _ (Hsame (Slot i)) Hb) as (b0 & H0 & Hp).
      apply payload_eq in Hp as (_ & _ & _ & -> & _). eauto. }
    exists st'. split_and!.
    + erewrite bind_Done; [rewrite prepend_nil; exact Hrun|].
      cbv zeta. unfold initsleeplock. erewrite bind_store by done.
      eapply push_run; [done|done| |].
      * rewrite is_Some_sel_upd. eauto.
      * eapply (inv_head_next _ _ _ FREE _ Hinv1); [done|by rewrite sentinel_free].
    + rewrite fmap_cons, reverse_cons, <- app_assoc. exact Hinv'.
    + by rewrite Hlen, cache_length_push_st, cache_length_upd.
    + intros x. by rewrite Hpay.
Qed.

Lemma init_run nbuf :
  binit (boot nbuf) = Done tt (init nbuf) [] ∧
  inv (init nbuf) (only_free (reverse (Slot <$> seq 0 nbuf))) ∧
  length (cache (init nbuf)) = nbuf ∧
  ∀ i bb, sel (init nbuf) (Slot i) = Some bb → payload bb = payload zero_buf.
Proof.
  destruct (binit_loop nbuf 0%nat (heads_st nbuf) [] (invd_heads nbuf))
    as (st' & Hrun & Hinv & Hlen & Hpay).
  { intros i bb [-> _]%lookup_replicate. done. }
  rewrite app_nil_r in Hinv.
  assert (init nbuf = st') as ->.
  { unfold init. rewrite binit_heads, Hrun. done. }
  split_and!; try done.
  - by rewrite binit_heads.
  - rewrite Hlen. simpl. by rewrite length_replicate.
  - intros i bb Hb.
    destruct (payload_sel_eq _ _ _ _ (Hpay (Slot i)) Hb) as (b0 & H0 & ->).
    by apply lookup_replicate in H0 as [-> _].
Qed.

(** ** The cache as a transition system *)

(** A call of the interface: [bread], [bwrite] and [brelse] by process
    [pid]; [bpin] and [bunpin] do not look at the caller. *)
Inductive op : Type :=
| Bread (pid d n : Z)
| Bwrite (pid : Z) (b : ptr)
| Brelse (pid : Z) (b : ptr)
| Bpin (b : ptr)
| Bunpin (b : ptr).

(** The state a call leaves behind for the calls that follow it: a call that
    returns or puts its caller to sleep leaves its state; a panic stops the
    kernel, and so does a fault. *)
Definition next_state {A} (o : outcome A) : option state :=
  match o with
  | Done _ s _ | Sleeping _ s _ => Some s
  | _ => None
  end.

Definition step (o : op) (st : state) : option state :=
  match o with
  | Bread pid d n => next_state (bread pid d n st)
  | Bwrite pid b => next_state (bwrite pid b st)
  | Brelse pid b => next_state (brelse pid b st)
  | Bpin b => next_state (bpin b st)
  | Bunpin b => next_state (bunpin b st)
  end.

(** The states of a cache of [nbuf] buffers: the one [binit] builds, and
    those reached from it by calls of the interface, here by the calls that
    satisfy [allowed]. *)
Inductive reachable_by (allowed : op → Prop) (nbuf : nat) : state → Prop :=
| reach_init : reachable_by allowed nbuf (init nbuf)
| reach_step st o st' :
    reachable_by allowed nbuf st → allowed o → step o st = Some st' →
    reachable_by allowed nbuf st'.

Definition reachable : nat → state → Prop := reachable_by (λ _, True).


Fixpoint run_ops (os : list op) (st : state) : option state :=
  match os with
  | [] => Some st
  | o :: os' =>
      match step o st with
      | Some st' => run_ops os' st'
      | None => None
      end
  end.

Lemma invd_ext st st' ls det :
  (∀ p, sel st' p = sel st p) →
  length (cache st') = length (cache st) →
  length (hash_table st') = length (hash_table st) →
  invd st ls det → invd st' ls det.
Proof.
  intros Hs Hc Ht Hinv. split.
  - rewrite Ht. apply Hinv.
  - apply Hinv.
  - intros k l Hl. eapply links_frame; [| |by eapply (inv_ring _ _ _ Hinv)].
    + intros. unfold nxt. by rewrite Hs.
    + intros. unfold prv. by rewrite Hs.
  - rewrite Hc. apply Hinv.
  - intros k l x bb Hl Hk Hx. rewrite Hs. by eapply (inv_hash _ _ _ Hinv).
  - intros i bb. change (cache st' !! i) with (sel st' (Slot i)). rewrite Hs.
    apply (inv_slot _ _ _ Hinv).
  - intros hd bb Hhd. rewrite Hs. by apply (inv_sentinel _ _ _ Hinv).
Qed.

Lemma sel_written_st bb st p : sel (written_st bb st) p = sel st p.
Proof. by destruct p. Qed.

Lemma inv_written st ls bb : inv st ls → inv (written_st bb st) ls.
Proof. apply invd_ext; [apply sel_written_st|done|done]. Qed.

Lemma inv_loaded st ls b bb :
  inv st ls → sel st b = Some bb → is_slot b → inv (loaded_st b bb st) ls.
Proof.
  intros Hinv Hb [i ->]. unfold loaded_st.
  pose proof (inv_slot _ _ _ Hinv i bb Hb).
  apply invd_upd; [|done|].
  - apply invd_upd; [done|done|]. intros bb0 ?. simplify_eq/=.
    split_and!; try tauto; by intros [?|[? ?]].
  - intros bb0. rewrite sel_upd_eq, Hb. intros ?. simplify_eq/=.
    split_and!; try tauto; by intros [?|[? ?]].
Qed.

(** A sentinel or a buffer of the cache: its block number hashes into the
    table. *)
Lemma inv_hash_range st ls det b bb :
  invd st ls det → sel st b = Some bb → 0 ≤ hash (blockno bb) < NHASH.
Proof.
  intros Hinv Hb. destruct b as [|i|h|]; simpl in Hb; try done.
  - by apply (inv_slot _ _ _ Hinv i).
  - assert (is_sentinel (BucketHead h)) as Hs by (right; eauto).
    destruct (inv_sentinel _ _ _ Hinv _ _ Hs Hb) as [_ ->]. done.
  - assert (is_sentinel FreelistHead) as Hs by by left.
    destruct (inv_sentinel _ _ _ Hinv _ _ Hs Hb) as [_ ->]. done.
Qed.

Lemma inv_lock_or_sleep st ls pid i bb :
  inv st ls → sel st (Slot i) = Some bb →
  ∀ s, next_state (lock_or_sleep pid (Slot i) (lock bb) st) = Some s → inv s ls.
Proof.
  intros Hinv Hb s. unfold lock_or_sleep. destruct (lock bb); simpl; intros [= <-]; [done|].
  by eapply inv_lock.
Qed.

Lemma next_state_prepend {A} t (o : outcome A) : next_state (prepend t o) = next_state o.
Proof. by destruct o. Qed.

Lemma next_state_Done {A} (a : A) s t s' : next_state (Done a s t) = Some s' → s' = s.
Proof. by intros [= <-]. Qed.

Lemma next_state_Sleeping {A} b s t s' :
  next_state (@Sleeping A b s t) = Some s' → s' = s.
Proof. by intros [= <-]. Qed.

Lemma first_such_split st P l b :
  first_such st P l = Some b → ∃ l1 l2, l = l1 ++ b :: l2.
Proof. intros H%first_such_elem. by apply list_elem_of_split. Qed.

(** What [bget] does in a well-formed cache, case by case. *)
Inductive bget_spec (st : state) (ls : list (list ptr)) (pid d n : Z) : outcome ptr → Prop :=
| bget_fault :
    ¬ (0 ≤ hash n < NHASH) → bget_spec st ls pid d n Fault
| bget_hit l i bb :
    0 ≤ hash n < NHASH →
    ls !! Z.to_nat (hash n) = Some l →
    first_such st (is_block d n) l = Some (Slot i) →
    sel st (Slot i) = Some bb →
    bget_spec st ls pid d n
      (prepend [Acquire (BucketLock (hash n)); Release (BucketLock (hash n))]
         (lock_or_sleep pid (Slot i) (lock bb) (incr_st (Slot i) bb st)))
| bget_miss l l1 i l2 bb :
    0 ≤ hash n < NHASH →
    ls !! Z.to_nat (hash n) = Some l →
    first_such st (is_block d n) l = None →
    ls !! FREE = Some (l1 ++ Slot i :: l2) →
    first_such st is_unused (l1 ++ Slot i :: l2) = Some (Slot i) →
    sel st (Slot i) = Some bb →
    bget_spec st ls pid d n
      (prepend [Acquire (BucketLock (hash n)); Acquire FreelistLock;
                Release FreelistLock; Release (BucketLock (hash n))]
         (lock_or_sleep pid (Slot i) (lock bb) (claimed_st (Slot i) d n st)))
| bget_none l fl :
    0 ≤ hash n < NHASH →
    ls !! Z.to_nat (hash n) = Some l →
    first_such st (is_block d n) l = None →
    ls !! FREE = Some fl →
    first_such st is_unused fl = None →
    bget_spec st ls pid d n
      (Panic "bget: no buffers" st
         [Acquire (BucketLock (hash n)); Acquire FreelistLock; Release FreelistLock]).

Lemma bget_cases st ls pid d n : inv st ls → bget_spec st ls pid d n (bget pid d n st).
Proof.
  intros Hinv. destruct (decide (0 ≤ hash n < NHASH)) as [Hn|Hn].
  2:{ replace (bget pid d n st) with (@Fault ptr); [by constructor|].
      unfold bget, bind, acquire. by rewrite decide_False. }
  destruct (inv_lookup Hinv (Z.to_nat (hash n))) as [l Hl].
  { unfold FREE, NHASH in *. lia. }
  destruct (inv_lookup Hinv FREE) as [fl Hfl]; [done|].
  destruct (first_such st (is_block d n) l) as [b|] eqn:Hf.
  - pose proof (first_such_elem _ _ _ _ Hf) as Hin.
    destruct (inv_list_slot Hinv _ _ _ Hl Hin) as (i & -> & Hi).
    destruct (lookup_lt_is_Some_2 (cache st) i Hi) as [bb Hb].
    erewrite bget_run_hit by done. by econstructor.
  - destruct (first_such st is_unused fl) as [b|] eqn:Hu.
    + pose proof (first_such_elem _ _ _ _ Hu) as Hin.
      destruct (inv_list_slot Hinv _ _ _ Hfl Hin) as (i & -> & Hi).
      destruct (lookup_lt_is_Some_2 (cache st) i Hi) as [bb Hb].
      destruct (first_such_split _ _ _ _ Hu) as (l1 & l2 & ->).
      erewrite bget_run_miss by done. by econstructor.
    + erewrite bget_run_panic by done. by econstructor.
Qed.

Lemma lock_or_sleep_done pid b held st b' s t :
  lock_or_sleep pid b held st = Done b' s t →
  held = None ∧ b' = b ∧ s = upd b (with_lock (Some pid)) st ∧ t = [AcquireSleep b pid].
Proof. unfold lock_or_sleep. destruct held; [done|]. by intros [= <- <- <-]. Qed.

Lemma prepend_done {A} t (o : outcome A) a s t' :
  prepend t o = Done a s t' → ∃ t0, o = Done a s t0 ∧ t' = t ++ t0.
Proof. destruct o; simpl; try done. intros [= <- <- <-]. eauto. Qed.

(** A [bget] that returns: the buffer is locked by the caller and carries
    the requested identity. *)
Lemma bget_done st ls pid d n b s t :
  inv st ls → bget pid d n st = Done b s t →
  ∃ ls' i bb, inv s ls' ∧ b = Slot i ∧ sel s b = Some bb ∧
    lock bb = Some pid ∧ dev bb = d ∧ blockno bb = n ∧
    ls' !! Z.to_nat (hash n) ≠ None ∧ 0 ≤ hash n < NHASH.
Proof.
  intros Hinv. pose proof (bget_cases st ls pid d n Hinv) as Hc.
  destruct Hc as [|l i bb Hn Hl Hf Hb|l l1 i l2 bb Hn Hl Hf Hfl Hu Hb|];
    try done; intros Heq.
  - apply prepend_done in Heq as (t0 & Heq & ->).
    apply lock_or_sleep_done in Heq as (Hlk & -> & -> & ->).
    destruct (inv_incr _ _ _ _ Hinv Hb) as [Hinv1 Hb1].
    destruct (first_such_holds _ _ _ _ Hf) as (bb0 & Hb0 & Hid).
    rewrite Hb in Hb0. simplify_eq. apply bool_decide_eq_true in Hid as [Hd Hbn].
    exists ls, i, (with_lock (Some pid) (with_refcnt (wrap32 (refcnt bb0 + 1)) bb0)).
    split_and!; try done.
    + by eapply inv_lock.
    + by rewrite sel_upd_eq, Hb1.
    + by rewrite Hl.
    + lia.
    + lia.
  - apply prepend_done in Heq as (t0 & Heq & ->).
    apply lock_or_sleep_done in Heq as (Hlk & -> & -> & ->).
    destruct (inv_claimed _ _ _ _ _ _ d n _ Hinv Hfl Hb Hn Hl) as [Hinv1 (bb' & Hb' & Hp)].
    apply payload_eq in Hp as (_ & Hd & Hbn & _). simpl in Hd, Hbn.
    eexists _, i, (with_lock (Some pid) bb').
    split_and!; try done.
    + by eapply inv_lock.
    + by rewrite sel_upd_eq, Hb'.
    + rewrite list_lookup_insert_eq; [done|]. rewrite length_insert.
      by eapply lookup_lt_Some.
    + lia.
    + lia.
Qed.

Lemma bget_wf st ls pid d n s :
  inv st ls → next_state (bget pid d n st) = Some s → wf s.
Proof.
  intros Hinv. pose proof (bget_cases st ls pid d n Hinv) as Hc.
  destruct Hc as [|l i bb Hn Hl Hf Hb|l l1 i l2 bb Hn Hl Hf Hfl Hu Hb|]; try done.
  - rewrite next_state_prepend.
    destruct (inv_incr _ _ _ _ Hinv Hb) as [Hinv1 Hb1].
    intros Hs. exists ls.
    by eapply (inv_lock_or_sleep _ _ pid i _ Hinv1 Hb1).
  - rewrite next_state_prepend.
    destruct (inv_claimed _ _ _ _ _ _ d n _ Hinv Hfl Hb Hn Hl) as [Hinv1 (bb' & Hb' & Hp)].
    apply payload_eq in Hp as (_ & _ & _ & Hlk & _). simpl in Hlk. rewrite <- Hlk.
    intros Hs. eexists. by eapply (inv_lock_or_sleep _ _ pid i _ Hinv1 Hb').
Qed.

Lemma bread_wf st pid d n s :
  wf st → next_state (bread pid d n st) = Some s → wf s.
Proof.
  intros [ls Hinv]. rewrite bread_run.
  destruct (bget pid d n st) as [b s1 t| |b s1 t| |] eqn:Hg; try done.
  - destruct (bget_done _ _ _ _ _ _ _ _ Hinv Hg) as (ls' & i & bb & Hinv1 & -> & Hb & _).
    rewrite Hb. case_decide; intros ->%next_state_Done; exists ls'; [|done].
    apply inv_loaded; [done|done|by eexists].
  - intros ->%next_state_Sleeping. eapply bget_wf; [done|]. by rewrite Hg.
Qed.

Lemma bwrite_wf st pid b s :
  wf st → next_state (bwrite pid b st) = Some s → wf s.
Proof.
  intros [ls Hinv]. destruct (sel st b) as [bb|] eqn:Hb.
  - rewrite (bwrite_run _ _ _ _ Hb). case_decide; [|done]. intros ->%next_state_Done.
    exists ls. by apply inv_written.
  - unfold bwrite, holdingsleep, bind, load. by rewrite Hb.
Qed.

Lemma brelse_wf st pid b s :
  wf st → next_state (brelse pid b st) = Some s → wf s.
Proof.
  intros [ls Hinv]. destruct (sel st b) as [bb|] eqn:Hb.
  - destruct (decide (lock bb = Some pid)) as [Hl|Hl].
    + rewrite (brelse_run _ _ _ _ _ Hinv Hb Hl). cbv zeta.
      destruct (inv_locked_slot _ _ _ _ _ Hinv Hb) as (i & -> & Hi); [by rewrite Hl|].
      case_decide; intros ->%next_state_Done.
      * destruct (inv_elem_split _ _ i Hinv Hi) as (k & l1 & l2 & Hk).
        destruct (inv_brelse_zero _ _ _ _ _ _ _ _ Hinv Hb Hl Hk) as (fl & _ & Hinv').
        by eexists.
      * exists ls. by eapply inv_released.
    + by rewrite (brelse_run_panic _ _ _ _ Hb Hl).
  - unfold brelse, holdingsleep, bind, load. by rewrite Hb.
Qed.

Lemma bpin_wf st b s :
  wf st → next_state (bpin b st) = Some s → wf s.
Proof.
  intros [ls Hinv]. destruct (sel st b) as [bb|] eqn:Hb.
  - rewrite (bpin_run _ _ _ Hb) by by eapply inv_hash_range.
    intros ->%next_state_Done. exists ls. by eapply inv_incr.
  - unfold bpin, bind, load. by rewrite Hb.
Qed.

Lemma bunpin_wf st b s :
  wf st → next_state (bunpin b st) = Some s → wf s.
Proof.
  intros [ls Hinv]. destruct (sel st b) as [bb|] eqn:Hb.
  - rewrite (bunpin_run _ _ _ Hb) by by eapply inv_hash_range.
    intros ->%next_state_Done. exists ls. by eapply inv_decr.
  - unfold bunpin, bind, load. by rewrite Hb.
Qed.

Lemma step_wf o st st' : wf st → step o st = Some st' → wf st'.
Proof.
  intros Hwf. destruct o; unfold step; intros Hs.
  - by eapply bread_wf.
  - by eapply bwrite_wf.
  - by eapply brelse_wf.
  - by eapply bpin_wf.
  - by eapply bunpin_wf.
Qed.

Lemma init_wf nbuf : wf (init nbuf).
Proof. eexists. apply init_run. Qed.

Lemma reachable_by_wf P nbuf st : reachable_by P nbuf st → wf st.
Proof. induction 1; eauto using init_wf, step_wf. Qed.

Lemma reachable_wf nbuf st : reachable nbuf st → wf st.
Proof. apply reachable_by_wf. Qed.

Lemma reachable_by_weaken (P : op → Prop) nbuf st :
  reachable_by P nbuf st → reachable nbuf st.
Proof. induction 1; [constructor|by econstructor]. Qed.

Lemma reachable_run_ops P nbuf os : ∀ st st',
  reachable_by P nbuf st → Forall P os → run_ops os st = Some st' →
  reachable_by P nbuf st'.
Proof.
  induction os as [|o os IH]; intros st st' Hr HP; simpl.
  - by intros [= <-].
  - apply Forall_cons in HP as [Ho HP].
    destruct (step o st) as [s1|] eqn:E; [|done].
    apply IH; [|done]. by econstructor.
Qed.

(** ** The array of buffers never changes size *)

Definition keeps_size {A} (m : M A) : Prop :=
  ∀ st, match m st with
        | Done _ s _ | Panic _ s _ | Sleeping _ s _ =>
            length (cache s) = length (cache st)
        | _ => True
        end.

Lemma keeps_size_bind {A B} (m : M A) (k : A → M B) :
  keeps_size m → (∀ a, keeps_size (k a)) → keeps_size (bind m k).
Proof.
  intros Hm Hk st. unfold bind. specialize (Hm st).
  destruct (m st) as [a s t| | | |]; try done.
  specialize (Hk a s). destruct (k a s); simpl; congruence.
Qed.

Lemma keeps_size_ret {A} (a : A) : keeps_size (ret a).
Proof. by intros st. Qed.

Lemma keeps_size_load p : keeps_size (load p).
Proof. intros st. unfold load. by destruct (sel st p). Qed.

Lemma keeps_size_store p f : keeps_size (store p f).
Proof. intros st. unfold store. destruct (sel st p); [|done]. apply cache_length_upd. Qed.

Lemma keeps_size_emit e : keeps_size (emit e).
Proof. by intros st. Qed.

Lemma keeps_size_panic {A} msg : keeps_size (@panic A msg).
Proof. by intros st. Qed.

Lemma keeps_size_acquire l : keeps_size (acquire l).
Proof. intros st. unfold acquire. by case_decide. Qed.

Lemma keeps_size_release l : keeps_size (release l).
Proof. intros st. unfold release. by case_decide. Qed.

Lemma keeps_size_acquiresleep b pid : keeps_size (acquiresleep b pid).
Proof.
  intros st. unfold acquiresleep. destruct (sel st b) as [bb|]; [|done].
  destruct (lock bb); [done|]. apply cache_length_upd.
Qed.

Lemma keeps_size_if {A} (c : bool) (m1 m2 : M A) :
  keeps_size m1 → keeps_size m2 → keeps_size (if c then m1 else m2).
Proof. by destruct c. Qed.

Lemma keeps_size_decide {A} P `{Decision P} (m1 m2 : M A) :
  keeps_size m1 → keeps_size m2 → keeps_size (if decide P then m1 else m2).
Proof. by case_decide. Qed.

Lemma keeps_size_virtio b w : keeps_size (virtio_disk_rw b w).
Proof.
  apply keeps_size_bind; [apply keeps_size_load|]. intros bb. destruct w.
  - by intros st.
  - intros st. apply cache_length_upd.
Qed.

Lemma keeps_size_scan_bucket fuel hd d n b : keeps_size (scan_bucket fuel hd d n b).
Proof.
  revert b. induction fuel as [|fuel IH]; intros b; [by intros st|].
  simpl. apply keeps_size_decide; [apply keeps_size_ret|].
  apply keeps_size_bind; [apply keeps_size_load|]. intros bb.
  apply keeps_size_decide; [apply keeps_size_ret|apply IH].
Qed.

Lemma keeps_size_scan_free fuel b : keeps_size (scan_free fuel b).
Proof.
  revert b. induction fuel as [|fuel IH]; intros b; [by intros st|].
  simpl. apply keeps_size_decide; [apply keeps_size_ret|].
  apply keeps_size_bind; [apply keeps_size_load|]. intros bb.
  apply keeps_size_decide; [apply keeps_size_ret|apply IH].
Qed.

Lemma keeps_size_budget {A} (m : nat → M A) :
  (∀ fuel, keeps_size (m fuel)) → keeps_size (λ st, m (scan_budget st) st).
Proof. intros H st. apply H. Qed.

#[local] Hint Resolve keeps_size_ret keeps_size_load keeps_size_store keeps_size_emit
  keeps_size_panic keeps_size_acquire keeps_size_release keeps_size_acquiresleep
  keeps_size_virtio keeps_size_scan_bucket keeps_size_scan_free : bio.

Ltac keeps_size :=
  repeat first
    [ progress auto with bio
    | apply keeps_size_bind; [|intros ?]
    | apply keeps_size_decide
    | apply keeps_size_if
    | apply (keeps_size_budget (λ fuel, scan_bucket fuel _ _ _ _))
    | apply (keeps_size_budget (λ fuel, scan_free fuel _))
    | match goal with |- keeps_size (match ?x with _ => _ end) => destruct x end ].










(** ** The lists as seen by the observers *)

(** [x] is on the list with sentinel [hd]. *)
Definition on_list (st : state) (hd x : ptr) : Prop :=
  ∃ l, members st hd = Some l ∧ x ∈ l.

Lemma walk_ext fuel st st' hd p :
  (∀ x, nxt st' x = nxt st x) → walk fuel st' hd p = walk fuel st hd p.
Proof.
  intros Hn. revert p. induction fuel as [|fuel IH]; intros p; [done|].
  simpl. case_decide; [done|]. specialize (Hn p). unfold nxt in Hn.
  destruct (sel st' p) as [b1|], (sel st p) as [b0|]; simplify_eq/=; try done.
  by rewrite Hn, IH.
Qed.

Lemma members_ext st st' hd :
  (∀ x, nxt st' x = nxt st x) → length (cache st') = length (cache st) →
  members st' hd = members st hd.
Proof.
  intros Hn Hc. unfold members. pose proof (Hn hd) as Hh. unfold nxt in Hh.
  unfold scan_budget. rewrite Hc.
  destruct (sel st' hd) as [b1|], (sel st hd) as [b0|]; try done.
  injection Hh as Hh. rewrite Hh. by apply walk_ext.
Qed.

Lemma members_upd_payload st p f hd :
  keeps_links f → members (upd p f st) hd = members st hd.
Proof.
  intros Hf. apply members_ext; [|apply cache_length_upd].
  intros x. by apply nxt_upd_payload.
Qed.

Lemma members_bucket st ls det (h : Z) l :
  invd st ls det → members st (BucketHead h) = Some l →
  0 ≤ h < NHASH ∧ ls !! Z.to_nat h = Some l.
Proof.
  intros Hinv Hm.
  assert (0 ≤ h < NHASH) as Hh.
  { unfold members in Hm. simpl in Hm. case_decide; [|done].
    destruct (hash_table st !! Z.to_nat h) eqn:E; [|done].
    apply lookup_lt_Some in E. rewrite (inv_table _ _ _ Hinv) in E.
    unfold FREE in E. lia. }
  split; [done|].
  destruct (inv_lookup Hinv (Z.to_nat h)) as [l' Hl']; [unfold FREE; lia|].
  pose proof (inv_members Hinv _ _ Hl') as Hm'. rewrite sentinel_bucket in Hm' by done.
  congruence.
Qed.

Lemma members_free st ls det l :
  invd st ls det → members st FreelistHead = Some l → ls !! FREE = Some l.
Proof.
  intros Hinv Hm. destruct (inv_lookup Hinv FREE) as [l' Hl']; [done|].
  pose proof (inv_members Hinv _ _ Hl') as Hm'. rewrite sentinel_free in Hm'.
  congruence.
Qed.

Lemma inv_bucket st ls det (h : Z) l :
  invd st ls det → 0 ≤ h < NHASH → ls !! Z.to_nat h = Some l → bucket st h = Some l.
Proof.
  intros Hinv Hh Hl. unfold bucket. rewrite <- sentinel_bucket by done.
  by eapply inv_members.
Qed.

Lemma inv_freelist st ls det l :
  invd st ls det → ls !! FREE = Some l → freelist st = Some l.
Proof.
  intros Hinv Hl. unfold freelist. rewrite <- sentinel_free. by eapply inv_members.
Qed.

(** ** The interface, operation by operation *)

(** C10.  [bwrite] by the holder of the buffer's sleep lock returns, and
    changes nothing in the cache: the hash table, the free list and every
    buffer (reference counts, valid flags, identities, links, sleep locks,
    content) are as before; the call's one event is the device write, which
    stores the buffer's content on the disk under the buffer's identity. *)
Theorem bwrite_keeps_bookkeeping st pid b bb :
  sel st b = Some bb → lock bb = Some pid →
  ∃ st',
    bwrite pid b st = Done tt st' [DiskRW b true] ∧
    hash_table st' = hash_table st ∧
    freelist_head st' = freelist_head st ∧
    cache st' = cache st ∧
    disk st' = <[(dev bb, blockno bb) := data bb]> (disk st).
Proof.
  intros Hb Hl. exists (written_st bb st).
  rewrite (bwrite_run _ _ _ _ Hb). by rewrite decide_True.
Qed.

(** C9.  [bunpin] decrements the reference count (modulo 2^32) between
    acquiring and releasing the lock of the bucket the block number hashes
    to, which is the bucket the buffer is on if it is on one; nothing else
    changes: the buffer's other fields, every other struct, the disk, and
    all lists are as before, also when the count reaches zero. *)
Theorem bunpin_only_decrements nbuf st b bb :
  reachable nbuf st → sel st b = Some bb →
  let h := hash (blockno bb) in
  ∃ st',
    bunpin b st = Done tt st' [Acquire (BucketLock h); Release (BucketLock h)] ∧
    sel st' b = Some (with_refcnt (wrap32 (refcnt bb - 1)) bb) ∧
    (∀ x, x ≠ b → sel st' x = sel st x) ∧
    disk st' = disk st ∧
    (∀ hd, members st' hd = members st hd) ∧
    (∀ k, on_list st (BucketHead k) b → k = h).
Proof.
  intros [ls Hinv]%reachable_wf Hb h. exists (decr_st b bb st).
  split_and!.
  - apply bunpin_run; [done|]. by eapply inv_hash_range.
  - by eapply inv_decr.
  - intros x Hx. unfold decr_st. by rewrite sel_upd_ne.
  - apply disk_upd.
  - intros hd. by apply members_upd_payload.
  - intros k (l & Hm & Hin).
    destruct (members_bucket _ _ _ _ _ Hinv Hm) as [Hk Hl].
    rewrite <- (Z2Nat.id k) by lia. symmetry.
    eapply (inv_hash _ _ _ Hinv); [exact Hl| |done|done]. unfold FREE. lia.
Qed.

(** ** Sample runs *)

Lemma reachable_by_run P nbuf os st :
  Forall P os → run_ops os (init nbuf) = Some st → reachable_by P nbuf st.
Proof. intros. eapply reachable_run_ops; [constructor|done|done]. Qed.

Lemma reachable_run nbuf os st :
  run_ops os (init nbuf) = Some st → reachable nbuf st.
Proof. apply reachable_by_run. by apply Forall_forall. Qed.

(** A cache of two buffers after process 7 has fetched block 5 of device
    1: the block is in [cache[1]], the head of the free list after
    [binit]. *)
Definition fetched_st : state :=
  Eval vm_compute in default (init 2) (run_ops [Bread 7 1 5] (init 2)).

Definition fetched_buf : buf := Buf 1 1 5 (Some 7) 1 (BucketHead 5) (BucketHead 5) [].

Lemma fetched_reachable : reachable 2 fetched_st.
Proof. by apply (reachable_run 2 [Bread 7 1 5]). Qed.

Lemma fetched_sel : sel fetched_st (Slot 1) = Some fetched_buf.
Proof. reflexivity. Qed.

Lemma bwrite_keeps_bookkeeping_witness :
  ∃ st',
    bwrite 7 (Slot 1) fetched_st = Done tt st' [DiskRW (Slot 1) true] ∧
    hash_table st' = hash_table fetched_st ∧
    freelist_head st' = freelist_head fetched_st ∧
    cache st' = cache fetched_st ∧
    disk st' = <[(1, 5) := []]> (disk fetched_st).
Proof.
  exact (bwrite_keeps_bookkeeping fetched_st 7 (Slot 1) fetched_buf fetched_sel eq_refl).
Defined.

Lemma bunpin_only_decrements_witness :
  ∃ st',
    bunpin (Slot 1) fetched_st
      = Done tt st' [Acquire (BucketLock 5); Release (BucketLock 5)] ∧
    sel st' (Slot 1) = Some (Buf 1 1 5 (Some 7) 0 (BucketHead 5) (BucketHead 5) []) ∧
    (∀ x, x ≠ Slot 1 → sel st' x = sel fetched_st x) ∧
    disk st' = disk fetched_st ∧
    (∀ hd, members st' hd = members fetched_st hd) ∧
    (∀ k, on_list fetched_st (BucketHead k) (Slot 1) → k = 5).
Proof.
  exact (bunpin_only_decrements 2 fetched_st (Slot 1) fetched_buf
           fetched_reachable fetched_sel).
Defined.

(** The buffer stays on bucket 5 with a count of zero. *)
Example bunpin_to_zero_stays :
  match bunpin (Slot 1) fetched_st with
  | Done _ st' _ =>
      bucket st' 5 = Some [Slot 1] ∧ freelist st' = Some [Slot 0] ∧
      (refcnt <$> sel st' (Slot 1)) = Some 0
  | _ => False
  end.
Proof. vm_compute. done. Qed.

Lemma brelse_done_unlocked st ls pid b bb st' t :
  inv st ls → sel st b = Some bb → lock bb = Some pid →
  brelse pid b st = Done tt st' t →
  ∃ bb', sel st' b = Some bb' ∧
    payload bb' = payload (with_refcnt (wrap32 (refcnt bb - 1)) (with_lock None bb)).
Proof.
  intros Hinv Hb Hl. rewrite (brelse_run _ _ _ _ _ Hinv Hb Hl). cbv zeta.
  destruct (inv_released _ _ _ _ _ Hinv Hb Hl) as [Hinv2 Hb2].
  case_decide; intros [= <- <-].
  - pose proof (payload_push_st FreelistHead b
      (unlink_st b (released_st b bb st)) b) as Hp.
    rewrite payload_unlink_st, Hb2 in Hp.
    destruct (sel (push_st _ _ _) b) as [bb'|]; [|done].
    exists bb'. split; [done|]. simpl in Hp. congruence.
  - eauto.
Qed.

(** C6.  On a buffer whose sleep lock the caller does not hold, [bwrite]
    and [brelse] panic, leaving the cache as it is.  When the caller holds
    the lock, both return ([bwrite] with the device write as its only event)
    and [bwrite] leaves the lock with the caller. *)
Theorem contract_violations_panic nbuf st pid b bb :
  reachable nbuf st → sel st b = Some bb →
  (lock bb ≠ Some pid →
     bwrite pid b st = Panic "bwrite" st [] ∧
     brelse pid b st = Panic "brelse" st []) ∧
  (lock bb = Some pid →
     (∃ st', bwrite pid b st = Done tt st' [DiskRW b true] ∧
             sel st' b = Some bb) ∧
     (∃ st' t, brelse pid b st = Done tt st' t)).
Proof.
  intros [ls Hinv]%reachable_wf Hb. split; intros Hl.
  - split.
    + rewrite (bwrite_run _ _ _ _ Hb). by rewrite decide_False.
    + by apply brelse_run_panic with bb.
  - split.
    + exists (written_st bb st). rewrite (bwrite_run _ _ _ _ Hb).
      rewrite decide_True by done. by rewrite sel_written_st.
    + rewrite (brelse_run _ _ _ _ _ Hinv Hb Hl). cbv zeta. case_decide; eauto.
Qed.

Lemma contract_violations_panic_witness :
  (bwrite 8 (Slot 1) fetched_st = Panic "bwrite" fetched_st [] ∧
   brelse 8 (Slot 1) fetched_st = Panic "brelse" fetched_st []) ∧
  (∃ st', bwrite 7 (Slot 1) fetched_st = Done tt st' [DiskRW (Slot 1) true] ∧
          sel st' (Slot 1) = Some fetched_buf) ∧
  (∃ st' t, brelse 7 (Slot 1) fetched_st = Done tt st' t).
Proof.
  pose proof (contract_violations_panic 2 fetched_st 8 (Slot 1) fetched_buf
                fetched_reachable fetched_sel) as [H8 _].
  pose proof (contract_violations_panic 2 fetched_st 7 (Slot 1) fetched_buf
                fetched_reachable fetched_sel) as [_ H7].
  split; [apply H8; discriminate|apply H7; reflexivity].
Defined.

(** C5, as the code has it.  The reference count of a buffer is always in
    the range of a 32-bit unsigned integer.  A [brelse] by a caller who does
    not hold the buffer's sleep lock panics and leaves the cache as it is;
    in particular a second [brelse] right after a [brelse] that returned
    panics. *)
Theorem refcnt_unsigned_and_double_release nbuf st :
  reachable nbuf st →
  (∀ i bb, sel st (Slot i) = Some bb → 0 ≤ refcnt bb < 2 ^ 32) ∧
  (∀ pid b bb, sel st b = Some bb → lock bb ≠ Some pid →
     brelse pid b st = Panic "brelse" st []) ∧
  (∀ pid b st' t, brelse pid b st = Done tt st' t →
     brelse pid b st' = Panic "brelse" st' []).
Proof.
  intros [ls Hinv]%reachable_wf. split_and!.
  - intros i bb Hb. by apply (inv_slot _ _ _ Hinv i).
  - intros pid b bb Hb Hl. by apply brelse_run_panic with bb.
  - intros pid b st' t Hrun.
    destruct (sel st b) as [bb|] eqn:Hb.
    2:{ unfold brelse, holdingsleep, bind, load in Hrun. by rewrite Hb in Hrun. }
    destruct (decide (lock bb = Some pid)) as [Hl|Hl].
    2:{ by rewrite (brelse_run_panic _ _ _ _ Hb Hl) in Hrun. }
    destruct (brelse_done_unlocked _ _ _ _ _ _ _ Hinv Hb Hl Hrun) as (bb' & Hb' & Hp).
    apply payload_eq in Hp as (_ & _ & _ & Hlk & _). simpl in Hlk.
    apply brelse_run_panic with bb'; [done|]. by rewrite Hlk.
Qed.

Lemma refcnt_unsigned_and_double_release_witness :
  (∀ i bb, sel fetched_st (Slot i) = Some bb → 0 ≤ refcnt bb < 2 ^ 32) ∧
  brelse 8 (Slot 1) fetched_st = Panic "brelse" fetched_st [] ∧
  (∀ st' t, brelse 7 (Slot 1) fetched_st = Done tt st' t →
     brelse 7 (Slot 1) st' = Panic "brelse" st' []).
Proof.
  destruct (refcnt_unsigned_and_double_release 2 fetched_st fetched_reachable)
    as (H1 & H2 & H3).
  split_and!; [exact H1|apply (H2 8 (Slot 1) fetched_buf); [reflexivity|discriminate]|].
  exact (H3 7 (Slot 1)).
Defined.

(** A cache of one buffer in which process 7 has fetched block 5 of device
    1 and then unpinned it: the count is zero and process 7 still holds the
    sleep lock. *)
Definition unpinned_st : state :=
  Eval vm_compute in default (init 1) (run_ops [Bread 7 1 5; Bunpin (Slot 0)] (init 1)).

(** C5, as the spec has it, fails: the [brelse] that takes the count from
    zero is not caught; it returns, and the count wraps to 2^32 - 1. *)
Lemma release_below_zero_not_caught :
  reachable 1 unpinned_st ∧
  (refcnt <$> sel unpinned_st (Slot 0)) = Some 0 ∧
  ∃ st' t,
    brelse 7 (Slot 0) unpinned_st = Done tt st' t ∧
    (refcnt <$> sel st' (Slot 0)) = Some (2 ^ 32 - 1).
Proof.
  split; [by apply (reachable_run 1 [Bread 7 1 5; Bunpin (Slot 0)])|].
  split; [reflexivity|].
  by eexists _, _.
Qed.

Lemma filter_ne_notin (b : ptr) (l : list ptr) : b ∉ l → filter (λ x, x ≠ b) l = l.
Proof.
  induction l as [|y l IH]; [done|]. intros Hb.
  rewrite filter_cons_True by set_solver. rewrite IH; [done|set_solver].
Qed.

Lemma filter_ne_split (b : ptr) (l1 l2 : list ptr) :
  NoDup (l1 ++ b :: l2) → filter (λ x, x ≠ b) (l1 ++ b :: l2) = l1 ++ l2.
Proof.
  intros Hd. apply NoDup_app in Hd as (_ & Hd1 & Hd2).
  apply NoDup_cons in Hd2 as [Hd2 _].
  rewrite filter_app, filter_cons_False by (intros ?; done).
  rewrite !filter_ne_notin; [done|done|]. intros Hin. apply (Hd1 b Hin). set_solver.
Qed.

(** The lists after the buffer on list [k] has been moved to the head of
    the free list. *)
Lemma moved_to_free_lookup (ls : list (list ptr)) k l1 b l2 fl j l :
  NoDup (mjoin ls) → length ls = S FREE →
  ls !! k = Some (l1 ++ b :: l2) →
  <[k := l1 ++ l2]> ls !! FREE = Some fl →
  ls !! j = Some l →
  <[FREE := b :: fl]> (<[k := l1 ++ l2]> ls) !! j =
    Some (if decide (j = FREE) then b :: filter (λ x, x ≠ b) l else filter (λ x, x ≠ b) l).
Proof.
  intros Hd Hlen Hk Hfl Hj.
  assert (NoDup (l1 ++ b :: l2)) as Hdk.
  { apply list_elem_of_split_length in Hk as (a & c & E & _).
    rewrite E, join_app in Hd. simpl in Hd.
    apply NoDup_app in Hd as (_ & _ & Hd). by apply NoDup_app in Hd as (Hd & _ & _). }
  assert (∀ j' l', j' ≠ k → ls !! j' = Some l' → b ∉ l') as Hother.
  { intros j' l' Hne Hj' Hin.
    assert (b ∈ l1 ++ b :: l2) as Hbk by set_solver.
    clear Hfl Hj Hdk Hlen. revert k j' Hk Hj' Hne.
    induction ls as [|l0 ls0 IH]; intros k j' Hk Hj' Hne; [done|].
    simpl in Hd. apply NoDup_app in Hd as (_ & Hd1 & Hd2).
    destruct k as [|k], j' as [|j']; simpl in *; simplify_eq.
    - eapply Hd1; [exact Hbk|]. apply list_elem_of_join. exists l'. split; [done|].
      by eapply list_elem_of_lookup_2.
    - eapply Hd1; [exact Hin|]. apply list_elem_of_join. eexists. split; [exact Hbk|].
      by eapply list_elem_of_lookup_2.
    - eapply (IH Hd2 k j'); eauto. }
  case_decide as Ej.
  - subst j. rewrite list_lookup_insert_eq by (rewrite length_insert, Hlen; lia).
    f_equal. f_equal. destruct (decide (k = FREE)) as [->|Hne].
    + rewrite list_lookup_insert_eq in Hfl by (rewrite Hlen; lia). simplify_eq.
      by rewrite filter_ne_split.
    + rewrite list_lookup_insert_ne in Hfl by done. simplify_eq.
      rewrite filter_ne_notin; [done|]. by eapply Hother.
  - rewrite list_lookup_insert_ne by done. destruct (decide (k = j)) as [->|Hne].
    + rewrite list_lookup_insert_eq by by eapply lookup_lt_Some. simplify_eq.
      by rewrite filter_ne_split.
    + rewrite list_lookup_insert_ne by done. rewrite Hj.
      rewrite filter_ne_notin; [done|]. by eapply Hother.
Qed.

Lemma inv_nodup_lists st ls : inv st ls → NoDup (mjoin ls).
Proof. intros Hinv. exact (inv_nodup Hinv). Qed.

(** C4.  [brelse] by the holder of the buffer's sleep lock returns.  It
    first gives up the sleep lock, then takes the lock of the bucket the
    block number hashes to (the bucket the buffer is on, if it is on one)
    and decrements the reference count; exactly when the count has become
    zero it takes the buffer off its list and puts it at the head of the
    free list, under the free-list lock.  Apart from the sleep lock and the
    count, no field of the buffer other than its links changes (content,
    device, block number and valid flag stay), no other buffer and no disk
    block changes, and after a release to zero no bucket holds the buffer,
    so no bucket scan finds it. *)
Theorem brelse_effect nbuf st pid b bb :
  reachable nbuf st → sel st b = Some bb → lock bb = Some pid →
  let h := hash (blockno bb) in
  let r := wrap32 (refcnt bb - 1) in
  ∃ st' bb',
    brelse pid b st = Done tt st'
      (if decide (r = 0)
       then [ReleaseSleep b; Acquire (BucketLock h); Acquire FreelistLock;
             Release FreelistLock; Release (BucketLock h)]
       else [ReleaseSleep b; Acquire (BucketLock h); Release (BucketLock h)]) ∧
    sel st' b = Some bb' ∧
    payload bb' = payload (with_refcnt r (with_lock None bb)) ∧
    (∀ x, x ≠ b → (payload <$> sel st' x) = (payload <$> sel st x)) ∧
    disk st' = disk st ∧
    (∀ k, on_list st (BucketHead k) b → k = h) ∧
    (r ≠ 0 → ∀ hd, members st' hd = members st hd) ∧
    (r = 0 →
       (∀ fl, freelist st = Some fl →
          freelist st' = Some (b :: filter (λ x, x ≠ b) fl)) ∧
       (∀ k l, bucket st k = Some l →
          bucket st' k = Some (filter (λ x, x ≠ b) l)) ∧
       (∀ k l d n, bucket st' k = Some l →
          (b ∉ l) ∧ (first_such st' (is_block d n) l ≠ Some b))).
Proof.
  intros [ls Hinv]%reachable_wf Hb Hl h r.
  destruct (inv_released _ _ _ _ _ Hinv Hb Hl) as [Hinv2 Hb2].
  destruct (inv_locked_slot _ _ _ _ _ Hinv Hb) as (i & -> & Hi); [by rewrite Hl|].
  destruct (inv_elem_split _ _ i Hinv Hi) as (k & l1 & l2 & Hk).
  destruct (inv_brelse_zero _ _ _ _ _ _ _ _ Hinv Hb Hl Hk) as (fl0 & Hfl0 & Hinv').
  pose proof (brelse_run _ _ _ _ _ Hinv Hb Hl) as Hrun. cbv zeta in Hrun.
  fold h r in Hrun.
  assert (∀ x, x ≠ Slot i →
    payload <$> sel (released_st (Slot i) bb st) x = payload <$> sel st x) as Hrel.
  { intros x Hx. unfold released_st, decr_st. by rewrite !sel_upd_ne. }
  assert (disk (released_st (Slot i) bb st) = disk st) as Hdisk.
  { unfold released_st, decr_st. by rewrite !disk_upd. }
  assert (∀ k', on_list st (BucketHead k') (Slot i) → k' = h) as Hown.
  { intros k' (l & Hm & Hin).
    destruct (members_bucket _ _ _ _ _ Hinv Hm) as [Hk' Hl'].
    rewrite <- (Z2Nat.id k') by lia. symmetry.
    eapply (inv_hash _ _ _ Hinv); [exact Hl'| |done|done]. unfold FREE. lia. }
  destruct (decide (r = 0)) as [Hz|Hz].
  - destruct (brelse_done_unlocked _ _ _ _ _ _ _ Hinv Hb Hl Hrun) as (bb' & Hb' & Hp).
    eexists _, bb'. split_and!; [exact Hrun|exact Hb'|exact Hp| | |exact Hown|done|].
    + intros x Hx. rewrite payload_push_st, payload_unlink_st. by apply Hrel.
    + by rewrite disk_push_st, disk_unlink_st.
    + intros _.
      pose proof (inv_nodup_lists _ _ Hinv) as Hnd.
      pose proof (inv_lists _ _ _ Hinv) as Hlen.
      split_and!.
      * intros fl Hfl. apply (members_free _ _ _ _ Hinv) in Hfl.
        eapply inv_freelist; [exact Hinv'|].
        erewrite moved_to_free_lookup by done. by rewrite decide_True.
      * intros k' l Hm. destruct (members_bucket _ _ _ _ _ Hinv Hm) as [Hk' Hl'].
        eapply inv_bucket; [exact Hinv'|done|].
        erewrite moved_to_free_lookup by done.
        rewrite decide_False; [done|]. unfold FREE. lia.
      * intros k' l d n Hm.
        destruct (members_bucket _ _ _ _ _ Hinv' Hm) as [Hk' Hl'].
        assert (Slot i ∉ l) as Hnin.
        { intros Hin. eapply (inv_disjoint Hinv' (Z.to_nat k') FREE l (Slot i :: fl0));
            [done| | |done|set_solver].
          - rewrite list_lookup_insert_eq; [done|]. rewrite length_insert, Hlen. lia.
          - unfold FREE. lia. }
        split; [done|]. intros Hf%first_such_elem. done.
  - destruct (brelse_done_unlocked _ _ _ _ _ _ _ Hinv Hb Hl Hrun) as (bb' & Hb' & Hp).
    eexists _, bb'. split_and!; [exact Hrun|exact Hb'|exact Hp|exact Hrel|exact Hdisk|exact Hown| |done].
    intros _ hd. unfold released_st, decr_st. by rewrite !members_upd_payload.
Qed.

Lemma brelse_effect_witness :
  ∃ st' bb',
    brelse 7 (Slot 1) fetched_st = Done tt st'
      [ReleaseSleep (Slot 1); Acquire (BucketLock 5); Acquire FreelistLock;
       Release FreelistLock; Release (BucketLock 5)] ∧
    sel st' (Slot 1) = Some bb' ∧
    payload bb' = (1, 1, 5, None, 0, []) ∧
    freelist st' = Some [Slot 1; Slot 0] ∧
    bucket st' 5 = Some [].
Proof.
  destruct (brelse_effect 2 fetched_st 7 (Slot 1) fetched_buf
              fetched_reachable fetched_sel eq_refl)
    as (st' & bb' & Hrun & Hb & Hp & _ & _ & _ & _ & Hz).
  destruct (Hz eq_refl) as (Hfl & Hbk & _).
  exists st', bb'. split_and!; [exact Hrun|exact Hb|exact Hp| |].
  - exact (Hfl [Slot 0] eq_refl).
  - exact (Hbk 5 [Slot 1] eq_refl).
Defined.

Lemma to_int_small n : 0 ≤ n < 2 ^ 31 → to_int n = n.
Proof.
  intros Hn. unfold to_int. rewrite Z.mod_small; [lia|].
  change (2 ^ 32) with (2 ^ 31 + 2 ^ 31). lia.
Qed.

(** Block numbers that fit a C [int] hash into the table. *)
Lemma hash_range n : 0 ≤ n < 2 ^ 31 → 0 ≤ hash n < NHASH.
Proof.
  intros Hn. unfold hash. rewrite to_int_small by done.
  apply Z.rem_bound_pos; [lia|done].
Qed.


Lemma first_such_upd_other st P l b f :
  b ∉ l → first_such (upd b f st) P l = first_such st P l.
Proof.
  induction l as [|x l IH]; [done|]. intros Hb. simpl.
  rewrite sel_upd_ne by set_solver. rewrite IH by set_solver. done.
Qed.




(** ** Exhaustion *)

(** A request: the calling process, the device and the block number. *)
Definition request : Type := Z * Z * Z.
Definition req_id (r : request) : Z * Z := (r.1.2, r.2).

(** [bread] for each request in turn; [None] unless every call returns. *)
Fixpoint breads (rs : list request) (st : state) : option state :=
  match rs with
  | [] => Some st
  | (pid, d, n) :: rs' =>
      match bread pid d n st with
      | Done _ s _ => breads rs' s
      | _ => None
      end
  end.

(** A cache in which [j] buffers are free and unused, and every buffer on
    a bucket holds one of the blocks [seen]. *)
Definition fresh (st : state) (ls : list (list ptr)) (seen : list (Z * Z)) (j : nat) : Prop :=
  inv st ls ∧
  (∃ fl, ls !! FREE = Some fl ∧ length fl = j ∧
     ∀ x bb, x ∈ fl → sel st x = Some bb → refcnt bb = 0 ∧ lock bb = None) ∧
  (∀ k l x bb, (k < FREE)%nat → ls !! k = Some l → x ∈ l → sel st x = Some bb →
     (dev bb, blockno bb) ∈ seen).

Lemma first_such_none_intro st P l :
  (∀ x, x ∈ l → ∃ bb, sel st x = Some bb ∧ P bb = false) →
  first_such st P l = None.
Proof.
  induction l as [|x l IH]; [done|]. intros H. simpl.
  destruct (H x) as (bb & -> & ->); [set_solver|]. apply IH. intros; apply H; set_solver.
Qed.

Lemma fresh_miss st ls seen j d n l :
  fresh st ls seen j → (d, n) ∉ seen → 0 ≤ hash n < NHASH →
  ls !! Z.to_nat (hash n) = Some l →
  first_such st (is_block d n) l = None.
Proof.
  intros (Hinv & _ & Hseen) Hnew Hn Hl. apply first_such_none_intro.
  intros x Hx. destruct (inv_list_sel Hinv _ _ _ Hl Hx) as [bb Hb].
  exists bb. split; [done|]. apply bool_decide_eq_false. intros [<- <-].
  apply Hnew. eapply Hseen; [|exact Hl|exact Hx|exact Hb]. unfold FREE, NHASH in *. lia.
Qed.

Lemma payload_claimed_other st b d n x :
  x ≠ b → payload <$> sel (claimed_st b d n st) x = payload <$> sel st x.
Proof.
  intros Hx. unfold claimed_st, rekeyed_st. rewrite payload_push_st.
  rewrite !sel_upd_ne by done. apply payload_unlink_st.
Qed.

Lemma fresh_step st ls seen j pid d n :
  fresh st ls seen (S j) → (d, n) ∉ seen → 0 ≤ hash n < NHASH →
  ∃ b st' t ls', bread pid d n st = Done b st' t ∧ fresh st' ls' ((d, n) :: seen) j.
Proof.
  intros Hfresh Hnew Hn. pose proof Hfresh as (Hinv & (fl & Hfl & Hlen & Hunused) & Hseen).
  destruct (inv_lookup Hinv (Z.to_nat (hash n))) as [l Hl]; [unfold FREE, NHASH in *; lia|].
  pose proof (fresh_miss _ _ _ _ _ _ _ Hfresh Hnew Hn Hl) as Hmiss.
  destruct fl as [|b fl']; [done|]. simpl in Hlen.
  assert (b ∈ b :: fl') as Hbin by set_solver.
  destruct (inv_list_slot Hinv _ _ _ Hfl Hbin) as (i & -> & Hi).
  destruct (lookup_lt_is_Some_2 (cache st) i Hi) as [bb Hb].
  change (sel st (Slot i) = Some bb) in Hb.
  destruct (Hunused _ _ Hbin Hb) as [Hr Hlk].
  assert (first_such st is_unused ([] ++ Slot i :: fl') = Some (Slot i)) as Hu.
  { cbn [app first_such]. rewrite Hb. unfold is_unused.
    by rewrite bool_decide_eq_true_2. }
  pose proof (bget_run_miss _ _ pid d n _ [] _ fl' _ Hinv Hn Hl Hmiss Hfl Hu Hb) as Hg.
  rewrite Hlk in Hg. cbn [lock_or_sleep prepend app] in Hg.
  destruct (inv_claimed _ _ [] _ fl' _ d n _ Hinv Hfl Hb Hn Hl) as [Hinvc (bbc & Hbc & Hp)].
  cbn [app] in Hinvc.
  pose proof (inv_lock _ _ _ _ (Some pid) Hinvc Hbc) as Hinv1.
  assert (sel (upd (Slot i) (with_lock (Some pid)) (claimed_st (Slot i) d n st)) (Slot i)
          = Some (with_lock (Some pid) bbc)) as Hb1 by by rewrite sel_upd_eq, Hbc.
  apply payload_eq in Hp as (Hv & Hd & Hbn & _ & _ & _). simpl in Hv, Hd, Hbn.
  eexists (Slot i), _, _, _. split.
  - rewrite bread_run, Hg, Hb1. simpl valid. rewrite decide_True by done. reflexivity.
  - assert (∀ x, x ≠ Slot i →
      payload <$> sel (loaded_st (Slot i) (with_lock (Some pid) bbc)
        (upd (Slot i) (with_lock (Some pid)) (claimed_st (Slot i) d n st))) x
      = payload <$> sel st x) as Hframe.
    { intros x Hx. unfold loaded_st. rewrite !sel_upd_ne by done.
      by apply payload_claimed_other. }
    pose proof (inv_nodup_list Hinv _ _ Hfl) as Hnd. apply NoDup_cons in Hnd as [Hnd _].
    assert (Z.to_nat (hash n) ≠ FREE) by (unfold FREE, NHASH in *; lia).
    split_and!.
    + apply inv_loaded; [done|done|by eexists].
    + exists fl'. split_and!.
      * rewrite list_lookup_insert_ne by done.
        rewrite list_lookup_insert_eq; [done|]. by eapply lookup_lt_Some.
      * lia.
      * intros x bbx Hx Hsx.
        destruct (payload_sel_eq _ _ _ _ (Hframe x ltac:(set_solver)) Hsx) as (b0 & H0 & Hp).
        apply payload_eq in Hp as (_ & _ & _ & -> & -> & _).
        eapply Hunused; [|done]. set_solver.
    + intros k lk x bbx Hk Hlk' Hx Hsx.
      destruct (decide (k = Z.to_nat (hash n))) as [->|Hne].
      * rewrite list_lookup_insert_eq in Hlk'
          by (rewrite length_insert; by eapply lookup_lt_Some).
        injection Hlk' as <-. apply elem_of_cons in Hx as [->|Hx].
        -- unfold loaded_st in Hsx. rewrite !sel_upd_eq, Hbc in Hsx.
           injection Hsx as <-. cbn [dev blockno with_valid with_data with_lock].
           rewrite Hd, Hbn. set_solver.
        -- assert (x ≠ Slot i) as Hxi.
           { intros ->. eapply (inv_disjoint Hinv (Z.to_nat (hash n)) FREE); eauto. }
           destruct (payload_sel_eq _ _ _ _ (Hframe x Hxi) Hsx) as (b0 & H0 & Hp).
           apply payload_eq in Hp as (_ & -> & -> & _).
           apply elem_of_cons. right. by eapply Hseen.
      * rewrite list_lookup_insert_ne in Hlk' by done.
        rewrite list_lookup_insert_ne in Hlk' by lia.
        assert (x ≠ Slot i) as Hxi.
        { intros ->. eapply (inv_disjoint Hinv k FREE); eauto. lia. }
        destruct (payload_sel_eq _ _ _ _ (Hframe x Hxi) Hsx) as (b0 & H0 & Hp).
        apply payload_eq in Hp as (_ & -> & -> & _).
        apply elem_of_cons. right. by eapply Hseen.
Qed.

Lemma fresh_exhausted st ls seen pid d n :
  fresh st ls seen 0 → (d, n) ∉ seen → 0 ≤ hash n < NHASH →
  bread pid d n st =
    Panic "bget: no buffers" st
      [Acquire (BucketLock (hash n)); Acquire FreelistLock; Release FreelistLock].
Proof.
  intros Hfresh Hnew Hn. pose proof Hfresh as (Hinv & (fl & Hfl & Hlen & Hunused) & Hseen).
  destruct (inv_lookup Hinv (Z.to_nat (hash n))) as [l Hl]; [unfold FREE, NHASH in *; lia|].
  pose proof (fresh_miss _ _ _ _ _ _ _ Hfresh Hnew Hn Hl) as Hmiss.
  destruct fl; [|done].
  rewrite bread_run. by erewrite bget_run_panic.
Qed.

Lemma fresh_breads rs : ∀ st ls seen j,
  fresh st ls seen (length rs + j) →
  NoDup ((req_id <$> rs) ++ seen) →
  Forall (λ r, 0 ≤ r.2 < 2 ^ 31) rs →
  ∃ st' ls', breads rs st = Some st' ∧ fresh st' ls' (reverse (req_id <$> rs) ++ seen) j.
Proof.
  induction rs as [|[[pid d] n] rs IH]; intros st ls seen j Hf Hnd Hv.
  - exists st, ls. by split.
  - apply Forall_cons in Hv as [Hn Hv]. simpl in Hn, Hnd.
    apply NoDup_cons in Hnd as [Hnew Hnd].
    destruct (fresh_step st ls seen (length rs + j) pid d n) as (b & st1 & t & ls1 & Hrun & Hf1).
    { exact Hf. } { set_solver. } { by apply hash_range. }
    destruct (IH st1 ls1 ((d, n) :: seen) j Hf1) as (st' & ls' & Hrs & Hf').
    { rewrite <- Permutation_middle. apply NoDup_cons. split; [|done]. exact Hnew. }
    { done. }
    exists st', ls'. split.
    + simpl. by rewrite Hrun.
    + rewrite fmap_cons, reverse_cons, <- app_assoc. exact Hf'.
Qed.

Lemma fresh_init K : fresh (init K) (only_free (reverse (Slot <$> seq 0 K))) [] K.
Proof.
  destruct (init_run K) as (_ & Hinv & Hlen & Hzero). split_and!.
  - done.
  - eexists. split_and!; [apply only_free_lookup_free| |].
    + by rewrite length_reverse, length_fmap, length_seq.
    + intros x bb Hx Hb.
      destruct (inv_list_slot Hinv FREE _ x (only_free_lookup_free _) Hx) as (i & -> & _).
      apply Hzero in Hb. by apply payload_eq in Hb as (_ & _ & _ & -> & -> & _).
  - intros k l x bb Hk Hl Hx. exfalso.
    apply only_free_lookup in Hl as [[_ ->]|[-> _]].
    + by apply elem_of_nil in Hx.
    + by apply Nat.lt_irrefl in Hk.
Qed.

(** C7.  A [bread] that misses (the bucket of the block holds no buffer
    with the requested identity) when the free list holds no buffer with a
    reference count of zero panics with ["bget: no buffers"], leaving the
    cache as it is, after it has taken the bucket lock and taken and
    released the free-list lock.  In a cache of [K] buffers, [K] calls of
    [bread] for distinct blocks, none released, all return, and the next
    call for a further block panics in this way. *)
Theorem exhaustion_panics :
  (∀ nbuf st pid d n l fl,
     reachable nbuf st → 0 ≤ n < 2 ^ 31 →
     bucket st (hash n) = Some l → first_such st (is_block d n) l = None →
     freelist st = Some fl → first_such st is_unused fl = None →
     bread pid d n st =
       Panic "bget: no buffers" st
         [Acquire (BucketLock (hash n)); Acquire FreelistLock; Release FreelistLock]) ∧
  (∀ K rs pid d n,
     length rs = K → NoDup ((req_id <$> rs) ++ [(d, n)]) →
     Forall (λ r, 0 ≤ r.2 < 2 ^ 31) rs → 0 ≤ n < 2 ^ 31 →
     ∃ st',
       breads rs (init K) = Some st' ∧
       bread pid d n st' =
         Panic "bget: no buffers" st'
           [Acquire (BucketLock (hash n)); Acquire FreelistLock; Release FreelistLock]).
Proof.
  split.
  - intros nbuf st pid d n l fl [ls Hinv]%reachable_wf Hn%hash_range Hl Hf Hfl Hu.
    destruct (members_bucket _ _ _ _ _ Hinv Hl) as [_ Hl'].
    apply (members_free _ _ _ _ Hinv) in Hfl.
    rewrite bread_run. by erewrite bget_run_panic.
  - intros K rs pid d n Hlen Hnd Hv Hn.
    destruct (fresh_breads rs (init K) (only_free (reverse (Slot <$> seq 0 K))) [] 0%nat)
      as (st' & ls' & Hrs & Hf).
    { rewrite Nat.add_0_r, Hlen. apply fresh_init. }
    { rewrite app_nil_r. by apply NoDup_app in Hnd as (? & _). }
    { done. }
    exists st'. split; [done|].
    eapply fresh_exhausted; [exact Hf| |by apply hash_range].
    rewrite app_nil_r. intros Hin. rewrite elem_of_reverse in Hin.
    apply NoDup_app in Hnd as (_ & Hnd & _). apply (Hnd _ Hin). set_solver.
Qed.

(** A cache of two buffers, both fetched and held: block 5 of device 1 by
    process 7, block 18 of device 1 by process 8. *)
Definition exhausted_st : state :=
  Eval vm_compute in
    default (init 2) (run_ops [Bread 7 1 5; Bread 8 1 18] (init 2)).

Lemma exhausted_reachable : reachable 2 exhausted_st.
Proof. apply (reachable_run 2 [Bread 7 1 5; Bread 8 1 18]). vm_compute. reflexivity. Qed.

Lemma exhaustion_panics_witness :
  bread 9 2 5 exhausted_st =
    Panic "bget: no buffers" exhausted_st
      [Acquire (BucketLock 5); Acquire FreelistLock; Release FreelistLock] ∧
  ∃ st',
    breads [(7, 1, 5); (8, 1, 18)] (init 2) = Some st' ∧
    bread 9 2 5 st' =
      Panic "bget: no buffers" st'
        [Acquire (BucketLock 5); Acquire FreelistLock; Release FreelistLock].
Proof.
  split.
  - apply (proj1 exhaustion_panics 2%nat exhausted_st 9 2 5 [Slot 0; Slot 1] []).
    + exact exhausted_reachable.
    + split; [discriminate|reflexivity].
    + vm_compute. reflexivity.
    + vm_compute. reflexivity.
    + vm_compute. reflexivity.
    + reflexivity.
  - apply (proj2 exhaustion_panics 2%nat [(7, 1, 5); (8, 1, 18)] 9 2 5).
    + reflexivity.
    + vm_compute. repeat constructor; set_solver.
    + repeat constructor; simpl; try discriminate; reflexivity.
    + split; [discriminate|reflexivity].
Defined.

(** ** Reuse order *)










(** ** List membership *)













(** ** Lock discipline *)

Definition trace_of {A} (o : outcome A) : list event :=
  match o with
  | Done _ _ t | Panic _ _ t | Sleeping _ _ t => t
  | Fault | OutOfFuel => []
  end.







Lemma lock_or_sleep_trace pid b held st :
  trace_of (lock_or_sleep pid b held st) = [] ∨
  trace_of (lock_or_sleep pid b held st) = [AcquireSleep b pid].
Proof. destruct held; simpl; auto. Qed.

Lemma trace_of_prepend {A} t (o : outcome A) :
  o ≠ Fault → o ≠ OutOfFuel → trace_of (prepend t o) = t ++ trace_of o.
Proof. by destruct o. Qed.

Lemma lock_or_sleep_not_fault pid b held st :
  lock_or_sleep pid b held st ≠ Fault ∧ lock_or_sleep pid b held st ≠ OutOfFuel.
Proof. by destruct held. Qed.




